(** * Primer analysis and design engine of SidLab-Tools (pages/PrimerAnalysis)

    A shallow embedding of [cleanSequence], [getComplement],
    [reverseComplement], [calculatePrimerProps] and [designPrimers], and the
    properties the specification states about them.

    Modelling choices.
    - A JavaScript string is a Rocq [string]; [split('')] and [join('')] are
      [list_ascii_of_string] and [string_of_list_ascii].  [cleanSequence]
      drops every code unit that is not an ASCII letter before anything else
      looks at the text, so code units beyond one byte behave like any other
      non-letter.
    - Numbers that hold positions, lengths and product sizes are integers
      ([Z]).  Numbers that hold temperatures, percentages, weights and scores
      are IEEE doubles in the source; here they are real numbers ([R]), with
      [Math.log] the natural logarithm.  Rounding, NaN and infinities are
      outside the model.
    - [Array.prototype.sort] is stable; it is modelled by a stable insertion
      sort driven by the sign of the comparator, which is the unique result
      of any stable sort for the comparators used here. *)

From Stdlib Require Import String Ascii List ZArith Reals Lra Lia Bool.
From Stdlib Require Import Sorting.Sorted Sorting.Permutation DecimalString.
Import ListNotations.

Open Scope string_scope.
Open Scope Z_scope.

(** ** Numbers *)

Definition Rleb (x y : R) : bool := if Rle_dec x y then true else false.
Definition Rltb (x y : R) : bool := if Rlt_dec x y then true else false.

Definition Math_log (x : R) : R := ln x.
Definition Math_log10 (x : R) : R := (ln x / ln 10)%R.
Definition Math_abs (x : R) : R := Rabs x.

(** [for (let x = lo; x < hi; x++)] visits [range lo hi] in order. *)
Definition range (lo hi : Z) : list Z :=
  map (fun k => lo + Z.of_nat k) (seq 0 (Z.to_nat (hi - lo))).

(** ** Strings *)

Definition strLen (s : string) : Z := Z.of_nat (String.length s).

Definition clampIndex (n x : Z) : Z := Z.min (Z.max x 0) n.

(** [String.prototype.substring(a, b)]: both arguments are clamped to
    [0, length] and swapped when [a > b]. *)
Definition substring (s : string) (a b : Z) : string :=
  let n := strLen s in
  let a' := clampIndex n a in
  let b' := clampIndex n b in
  let from := Z.min a' b' in
  let to := Z.max a' b' in
  string_of_list_ascii
    (firstn (Z.to_nat (to - from)) (skipn (Z.to_nat from) (list_ascii_of_string s))).

(** [String.prototype.slice(a, b)]: a negative argument counts from the end;
    an empty string results when the bounds cross. *)
Definition sliceIndex (n x : Z) : Z :=
  if x <? 0 then Z.max (n + x) 0 else Z.min x n.

Definition slice (s : string) (a b : Z) : string :=
  let n := strLen s in
  let from := sliceIndex n a in
  let to := sliceIndex n b in
  string_of_list_ascii
    (firstn (Z.to_nat (Z.max (to - from) 0))
            (skipn (Z.to_nat from) (list_ascii_of_string s))).

(** [s[i]]: the code unit at [i], [undefined] ([None]) out of range. *)
Definition charAt (s : string) (i : Z) : option ascii :=
  if i <? 0 then None else nth_error (list_ascii_of_string s) (Z.to_nat i).

Definition endsWith (s : string) (c : ascii) : bool :=
  match rev (list_ascii_of_string s) with
  | x :: _ => Ascii.eqb x c
  | [] => false
  end.

Definition isLetter (c : ascii) : bool :=
  let n := nat_of_ascii c in
  ((65 <=? n)%nat && (n <=? 90)%nat) || ((97 <=? n)%nat && (n <=? 122)%nat).

Definition upperChar (c : ascii) : ascii :=
  let n := nat_of_ascii c in
  if ((97 <=? n)%nat && (n <=? 122)%nat) then ascii_of_nat (n - 32) else c.

(** [seq.replace(/[^a-zA-Z]/g, '')] *)
Definition stripNonLetters (s : string) : string :=
  string_of_list_ascii (filter isLetter (list_ascii_of_string s)).

(** [toUpperCase] on a string of ASCII letters. *)
Definition toUpperCase (s : string) : string :=
  string_of_list_ascii (map upperChar (list_ascii_of_string s)).

Definition cleanSequence (seq : string) : string :=
  toUpperCase (stripNonLetters seq).

(** ** Complement *)

Definition complementMap : list (ascii * ascii) :=
  [ ("A", "T"); ("T", "A"); ("G", "C"); ("C", "G"); ("U", "A"); ("N", "N") ]%char.

Fixpoint lookupChar (k : ascii) (m : list (ascii * ascii)) : option ascii :=
  match m with
  | [] => None
  | (k', v) :: m' => if Ascii.eqb k k' then Some v else lookupChar k m'
  end.

(** [map[base] || 'N'] *)
Definition getComplement (base : ascii) : ascii :=
  match lookupChar base complementMap with
  | Some c => c
  | None => "N"%char
  end.

Definition reverseComplement (seq : string) : string :=
  string_of_list_ascii (map getComplement (rev (list_ascii_of_string seq))).

(** ** Nearest-neighbour parameters (SantaLucia 1998) *)

Record Thermo : Type := mkThermo { dH : R; dS : R }.

Definition addThermo (a b : Thermo) : Thermo :=
  mkThermo (dH a + dH b) (dS a + dS b).

Definition NN_PARAMS : list (string * Thermo) :=
  [ ("AA", mkThermo (-7.9) (-22.2)); ("TT", mkThermo (-7.9) (-22.2));
    ("AT", mkThermo (-7.2) (-20.4)); ("TA", mkThermo (-7.2) (-21.3));
    ("CA", mkThermo (-8.5) (-22.7)); ("TG", mkThermo (-8.5) (-22.7));
    ("GT", mkThermo (-8.4) (-22.4)); ("AC", mkThermo (-8.4) (-22.4));
    ("CT", mkThermo (-7.8) (-21.0)); ("AG", mkThermo (-7.8) (-21.0));
    ("GA", mkThermo (-8.2) (-22.2)); ("TC", mkThermo (-8.2) (-22.2));
    ("CG", mkThermo (-10.6) (-27.2)); ("GC", mkThermo (-9.8) (-24.4));
    ("GG", mkThermo (-8.0) (-19.9)); ("CC", mkThermo (-8.0) (-19.9)) ]%R.

Definition NN_INIT_GC : Thermo := mkThermo 0.1 (-2.8).
Definition NN_INIT_AT : Thermo := mkThermo 2.3 4.1.

Definition DEFAULT_CONC_NA_MM : R := 50.

Fixpoint lookupPair (k : string) (m : list (string * Thermo)) : option Thermo :=
  match m with
  | [] => None
  | (k', v) :: m' => if String.eqb k k' then Some v else lookupPair k m'
  end.

(** ** calculatePrimerProps *)

Record PrimerResult : Type := mkPrimerResult {
  seq : string;
  cleanSeq : string;
  length : Z;
  gc : R;
  tmBasic : R;
  tmNN : R;
  molecularWeight : R;
  isValid : bool;
  error : option string
}.

Definition isATGC (c : ascii) : bool :=
  (Ascii.eqb c "A" || Ascii.eqb c "T" || Ascii.eqb c "G" || Ascii.eqb c "C")%char.

(** [/[^ATGC]/.test(s)] *)
Definition hasNonATGC (s : string) : bool :=
  existsb (fun c => negb (isATGC c)) (list_ascii_of_string s).

(** [(s.match(/X/g) || []).length] *)
Definition countBase (b : ascii) (s : string) : Z :=
  Z.of_nat (List.length (filter (Ascii.eqb b) (list_ascii_of_string s))).

(** The initiation term chosen by one terminal base ([undefined] is neither
    G nor C). *)
Definition initTerm (b : option ascii) : Thermo :=
  match b with
  | Some c => if (Ascii.eqb c "G" || Ascii.eqb c "C")%char then NN_INIT_GC else NN_INIT_AT
  | None => NN_INIT_AT
  end.

(** One turn of the dinucleotide loop at index [i]. *)
Definition nnStep (s : string) (acc : Thermo) (i : Z) : Thermo :=
  match lookupPair (slice s i (i + 2)) NN_PARAMS with
  | Some p => addThermo acc p
  | None => acc
  end.

(** The accumulators [dH], [dS] after the two initiation terms and the loop
    [for (let i = 0; i < length - 1; i++)]. *)
Definition nnTotals (s : string) : Thermo :=
  let len := strLen s in
  let t0 := mkThermo 0 0 in
  let t1 := addThermo t0 (initTerm (charAt s 0)) in
  let t2 := addThermo t1 (initTerm (charAt s (len - 1))) in
  fold_left (nnStep s) (range 0 (len - 1)) t2.

Definition nnTm (t : Thermo) (primerConcNm : R) : R :=
  let saltCorr := (16.6 * Math_log10 (DEFAULT_CONC_NA_MM / 1000))%R in
  let R_ := 1.987%R in
  let Ct := (primerConcNm * 1e-9)%R in
  let term := (R_ * Math_log (Ct / 4))%R in
  (((dH t * 1000) / (dS t + term)) - 273.15 + saltCorr)%R.

Definition calculatePrimerProps (rawSeq : string) (primerConcNm : R) : PrimerResult :=
  let cleanSeq := cleanSequence rawSeq in
  if String.eqb cleanSeq "" then
    mkPrimerResult rawSeq "" 0 0 0 0 0 false None
  else if hasNonATGC cleanSeq then
    mkPrimerResult rawSeq cleanSeq (strLen cleanSeq) 0 0 0 0 false
                   (Some "Contains non-ATGC")
  else
    let length := strLen cleanSeq in
    let g := countBase "G" cleanSeq in
    let c := countBase "C" cleanSeq in
    let a := countBase "A" cleanSeq in
    let t := countBase "T" cleanSeq in
    let gcPercent := ((IZR (g + c) / IZR length) * 100)%R in
    let mw := (IZR a * 313.2 + IZR c * 289.2 + IZR g * 329.2 + IZR t * 304.2 - 61.96)%R in
    let tmBasic :=
      if length <? 14
      then IZR ((a + t) * 2 + (g + c) * 4)
      else (64.9 + 41 * (IZR (g + c) - 16.4) / IZR length)%R in
    let tmNN := nnTm (nnTotals cleanSeq) primerConcNm in
    mkPrimerResult rawSeq cleanSeq length gcPercent tmBasic tmNN mw true None.

(** ** designPrimers *)

Inductive Strand : Type := sense | antisense.

(** [CandidatePrimer extends PrimerResult]: the spread [{ ...props, start,
    end, strand }] keeps the property record and adds three fields. *)
Record CandidatePrimer : Type := mkCandidate {
  props : PrimerResult;
  start : Z;
  end_ : Z;
  strand : Strand
}.

Record PrimerPair : Type := mkPair {
  id : string;
  forward : CandidatePrimer;
  reverse : CandidatePrimer;
  productSize : Z;
  tmDiff : R;
  score : R
}.

(** The constraint configuration.  [minProd] and [maxProd] are product sizes
    in bases; the page reads them from text, and the model takes their
    integer values, of either sign.  [minLen] and [maxLen] are primer
    lengths, counts of bases (the page fixes them to 18 and 24). *)
Record Config : Type := mkConfig {
  minProd : Z;
  maxProd : Z;
  minLen : nat;
  maxLen : nat;
  minTm : R;
  maxTm : R;
  optTm : R
}.

(** Stable insertion sort by the sign of a numeric comparator. *)
Section Sort.
Context {A : Type} (cmp : A -> A -> R).

Fixpoint insertBy (x : A) (l : list A) : list A :=
  match l with
  | [] => [x]
  | y :: ys => if Rleb (cmp x y) 0 then x :: y :: ys else y :: insertBy x ys
  end.

Definition sortBy (l : list A) : list A := fold_right insertBy [] l.

(** The order the comparator induces: [x] may stand before [y]. *)
Definition before (x y : A) : Prop := (cmp x y <= 0)%R.

End Sort.

Definition MAX_CANDIDATES : nat := 300.

(** The pre-filter of the loose scan. *)
Definition looseKeep (config : Config) (p : PrimerResult) : bool :=
  isValid p && Rleb (minTm config - 5) (tmNN p) && Rleb (tmNN p) (maxTm config + 5).

(** The primer lengths tried at each position, [l = minLen .. maxLen]. *)
Definition lengths (config : Config) : list Z :=
  range (Z.of_nat (minLen config)) (Z.of_nat (maxLen config) + 1).

(** Inner loop of the forward scan: [if (i + l > len) break]. *)
Fixpoint forwardLengths (len i : Z) (ls : list Z) : list Z :=
  match ls with
  | [] => []
  | l :: ls' => if i + l >? len then [] else l :: forwardLengths len i ls'
  end.

(** The (start, length) positions the forward scan visits, in order. *)
Definition forwardScan (len : Z) (config : Config) : list (Z * Z) :=
  flat_map (fun i => map (pair i) (forwardLengths len i (lengths config)))
           (range 0 (len - minProd config)).

Definition forwardCandidate (s : string) (il : Z * Z) : CandidatePrimer :=
  let '(i, l) := il in
  let sub := substring s i (i + l) in
  mkCandidate (calculatePrimerProps sub 500) i (i + l - 1) sense.

Definition forwardCandidates (s : string) (config : Config) : list CandidatePrimer :=
  filter (fun c => looseKeep config (props c))
         (map (forwardCandidate s) (forwardScan (strLen s) config)).

(** The (end, length) positions the reverse scan builds a primer at:
    [if (i - l < 0) continue]. *)
Definition reverseScan (len : Z) (config : Config) : list (Z * Z) :=
  flat_map (fun i => map (pair i) (filter (fun l => negb (i - l <? 0)) (lengths config)))
           (range (minProd config) len).

Definition reverseCandidate (s : string) (il : Z * Z) : CandidatePrimer :=
  let '(i, l) := il in
  let start := i - l + 1 in
  let end_ := i in
  let templateSegment := substring s start (end_ + 1) in
  let primerSeq := reverseComplement templateSegment in
  mkCandidate (calculatePrimerProps primerSeq 500) start end_ antisense.

Definition reverseCandidates (s : string) (config : Config) : list CandidatePrimer :=
  filter (fun c => looseKeep config (props c))
         (map (reverseCandidate s) (reverseScan (strLen s) config)).

Definition tmDistance (config : Config) (a b : CandidatePrimer) : R :=
  (Math_abs (tmNN (props a) - optTm config) - Math_abs (tmNN (props b) - optTm config))%R.

Definition numberToString (z : Z) : string := NilEmpty.string_of_int (Z.to_int z).

Definition clampPenalty (p : CandidatePrimer) : R :=
  if endsWith (seq (props p)) "G" || endsWith (seq (props p)) "C" then 0%R else 2%R.

(** The body of the pairing loop for one forward and one reverse candidate:
    the pair pushed, or nothing when a guard says [continue]. *)
Definition tryPair (config : Config) (f r : CandidatePrimer) : list PrimerPair :=
  if end_ r <=? start f then [] else
  let pSize := end_ r - start f + 1 in
  if (pSize <? minProd config) || (pSize >? maxProd config) then [] else
  if Rltb (tmNN (props f)) (minTm config) || Rltb (maxTm config) (tmNN (props f)) then [] else
  if Rltb (tmNN (props r)) (minTm config) || Rltb (maxTm config) (tmNN (props r)) then [] else
  let tmDiff := Math_abs (tmNN (props f) - tmNN (props r)) in
  if Rltb 5 tmDiff then [] else
  let tmPenalty :=
    (Math_abs (tmNN (props f) - optTm config) + Math_abs (tmNN (props r) - optTm config))%R in
  let diffPenalty := (tmDiff * 2)%R in
  let gcPenalty := ((Math_abs (gc (props f) - 50) + Math_abs (gc (props r) - 50)) * 0.1)%R in
  let fClamp := clampPenalty f in
  let rClamp := clampPenalty r in
  let score := (tmPenalty + diffPenalty + gcPenalty + fClamp + rClamp)%R in
  [ mkPair (numberToString (start f) ++ "-" ++ numberToString (end_ r))
           f r pSize tmDiff score ].

Definition topFwd (s : string) (config : Config) : list CandidatePrimer :=
  firstn MAX_CANDIDATES (sortBy (tmDistance config) (forwardCandidates s config)).

Definition topRev (s : string) (config : Config) : list CandidatePrimer :=
  firstn MAX_CANDIDATES (sortBy (tmDistance config) (reverseCandidates s config)).

Definition allPairs (s : string) (config : Config) : list PrimerPair :=
  flat_map (fun f => flat_map (fun r => tryPair config f r) (topRev s config))
           (topFwd s config).

Definition designPrimers (template : string) (config : Config) : list PrimerPair :=
  let s := cleanSequence template in
  let len := strLen s in
  if len <? minProd config then [] else
  firstn 20 (sortBy (fun a b => (score a - score b)%R) (allPairs s config)).

(** ** The page: analysis of a primer pair and the design run *)

Inductive Polymerase : Type := taq | q5 | phusion.

Definition Math_min (x y : R) : R := Rmin x y.

(** [Math.floor], as an integer. *)
Definition Math_floor (x : R) : Z := Int_part x.

(** [fwd.isValid && rev.isValid ? Math.abs(fwd.tmNN - rev.tmNN) : 0] *)
Definition analysisTmDiff (fwd rev : PrimerResult) : R :=
  if isValid fwd && isValid rev then Math_abs (tmNN fwd - tmNN rev) else 0%R.

(** The recommended annealing temperature, [null] ([None]) unless both
    primers are valid. *)
Definition analysisTa (polymerase : Polymerase) (fwd rev : PrimerResult) : option Z :=
  if negb (isValid fwd) || negb (isValid rev) then None else
  let minTm := Math_min (tmNN fwd) (tmNN rev) in
  match polymerase with
  | q5 => Some (Math_floor minTm)
  | phusion => Some (Math_floor (minTm + 3))
  | taq => Some (Math_floor (minTm - 5))
  end.

(** The state of the design mode that [handleDesign] reads and writes. *)
Record DesignState : Type := mkDesignState {
  designResults : list PrimerPair;
  isDesigning : bool;
  hasSearched : bool;
  selectedPairId : option string
}.

(** [handleDesign] up to the timer: nothing happens on an empty template;
    otherwise the flags are raised and the old results cleared. *)
Definition handleDesign (templateInput : string) (st : DesignState) : DesignState :=
  if String.eqb templateInput "" then st
  else mkDesignState [] true true (selectedPairId st).

(** The timer callback of [handleDesign], with the template and the
    configuration it closed over. *)
Definition handleDesignTimeout (templateInput : string) (designConfig : Config)
           (st : DesignState) : DesignState :=
  let pairs := designPrimers templateInput designConfig in
  mkDesignState pairs false (hasSearched st)
    (match pairs with
     | p :: _ => Some (id p)
     | [] => selectedPairId st
     end).

(** [designResults.find(p => p.id === selectedPairId)] *)
Definition selectedPair (st : DesignState) : option PrimerPair :=
  find (fun p => match selectedPairId st with
                 | Some i => String.eqb (id p) i
                 | None => false
                 end)
       (designResults st).

(** * Statements

    The predicates the properties below are stated with, and the formulas of
    the specification written out in its own words. *)

(** A sequence over the alphabet A, T, G, C. *)
Definition isSequence (s : string) : Prop :=
  forallb isATGC (list_ascii_of_string s) = true.

(** Input the calculator rejects: nothing is left after cleaning, or a
    letter other than A, T, G, C is. *)
Definition rejected (rawSeq : string) : Prop :=
  cleanSequence rawSeq = "" \/ hasNonATGC (cleanSequence rawSeq) = true.

(** The claim as the specification words it: on rejected input every
    numeric field of the record is zero. *)
Definition invalid_record_all_zero (rawSeq : string) (c : R) : Prop :=
  rejected rawSeq ->
  let p := calculatePrimerProps rawSeq c in
  isValid p = false /\ length p = 0 /\ gc p = 0%R /\ molecularWeight p = 0%R /\
  tmBasic p = 0%R /\ tmNN p = 0%R.

(** Two records with the same properties: every field of the record but
    [seq], which is the raw input handed back and not one of the
    specification's properties (length, GC percentage, molecular weight, the
    two melting temperatures, validity). *)
Definition sameProperties (p q : PrimerResult) : Prop :=
  cleanSeq p = cleanSeq q /\ length p = length q /\ gc p = gc q /\
  tmBasic p = tmBasic q /\ tmNN p = tmNN q /\
  molecularWeight p = molecularWeight q /\ isValid p = isValid q /\
  error p = error q.

(** A string made of ASCII letters only. *)
Definition lettersOnly (s : string) : Prop :=
  forall c, In c (list_ascii_of_string s) -> isLetter c = true.

(** The invariant of a pair under a configuration: the reverse primer ends
    after the forward primer starts, the product size is the span between
    them and within bounds, both temperatures are within the strict window,
    and they are at most 5 apart. *)
Definition pairInvariant (config : Config) (p : PrimerPair) : Prop :=
  end_ (reverse p) > start (forward p) /\
  productSize p = end_ (reverse p) - start (forward p) + 1 /\
  minProd config <= productSize p <= maxProd config /\
  (minTm config <= tmNN (props (forward p)) <= maxTm config)%R /\
  (minTm config <= tmNN (props (reverse p)) <= maxTm config)%R /\
  (Rabs (tmNN (props (forward p)) - tmNN (props (reverse p))) <= 5)%R.

(** The invariant of one primer of a pair: its strand, its span on the
    template against the length of its cleaned sequence, and its length
    against the configured bounds. *)
Definition primerInvariant (config : Config) (side : Strand) (c : CandidatePrimer) : Prop :=
  strand c = side /\
  end_ c - start c + 1 = strLen (cleanSeq (props c)) /\
  length (props c) = strLen (cleanSeq (props c)) /\
  Z.of_nat (minLen config) <= length (props c) <= Z.of_nat (maxLen config).

(** The retention test of the forward scan at position ([i], [l]). *)
Definition retainedAt (s : string) (config : Config) (i l : Z) : Prop :=
  In (forwardCandidate s (i, l)) (forwardCandidates s config) <->
  isValid (props (forwardCandidate s (i, l))) = true /\
  (minTm config - 5 <= tmNN (props (forwardCandidate s (i, l))) <= maxTm config + 5)%R.

(** The claim as the specification words it, with the start index running
    from 0 up to and including [length - minProd]. *)
Definition forward_enumeration_inclusive (template : string) (config : Config) : Prop :=
  let s := cleanSequence template in
  let len := strLen s in
  forall i l : Z,
    0 <= i <= len - minProd config ->
    Z.of_nat (minLen config) <= l <= Z.of_nat (maxLen config) ->
    i + l <= len ->
    In (i, l) (forwardScan len config) /\ retainedAt s config i l.

(** The formula in the specification's words.  The terminal initiation
    penalty of one end base: *)
Definition terminalPenalty (b : ascii) : Thermo :=
  if (Ascii.eqb b "G" || Ascii.eqb b "C")%char
  then mkThermo 0.1 (-2.8)
  else mkThermo 2.3 4.1.

(** the adjacent base pairs of a sequence, a window of two sliding by one: *)
Fixpoint adjacentPairs (l : list ascii) : list (ascii * ascii) :=
  match l with
  | a :: ((b :: _) as tl) => (a, b) :: adjacentPairs tl
  | _ => []
  end.

(** the table entry of one dinucleotide: *)
Definition dinucleotide (ab : ascii * ascii) : Thermo :=
  match lookupPair (String (fst ab) (String (snd ab) "")) NN_PARAMS with
  | Some p => p
  | None => mkThermo 0 0
  end.

(** a sum of table entries: *)
Definition sumThermo (l : list Thermo) : Thermo :=
  fold_right addThermo (mkThermo 0 0) l.

(** and the totals: the penalty of the first base, the penalty of the last
    base, and the table entries of every adjacent pair, summed. *)
Definition specTotals (s : string) : Thermo :=
  let l := list_ascii_of_string s in
  addThermo (terminalPenalty (hd "A"%char l))
    (addThermo (terminalPenalty (last l "A"%char))
       (sumThermo (map dinucleotide (adjacentPairs l)))).

(** The melting temperature from those totals, at primer concentration [c]
    in nM and 0.05 M salt. *)
Definition specTm (s : string) (c : R) : R :=
  ((dH (specTotals s) * 1000) / (dS (specTotals s) + 1.987 * ln ((c * 1e-9) / 4))
   - 273.15 + 16.6 * (ln 0.05 / ln 10))%R.

(** One turn of the dinucleotide loop, on the pair it reads. *)
Definition pairStep (acc : Thermo) (ab : ascii * ascii) : Thermo :=
  match lookupPair (String (fst ab) (String (snd ab) "")) NN_PARAMS with
  | Some p => addThermo acc p
  | None => acc
  end.

(** An upper-case ASCII letter. *)
Definition isUpper (c : ascii) : bool :=
  let n := nat_of_ascii c in (65 <=? n)%nat && (n <=? 90)%nat.

(** A base [getComplement] can return. *)
Definition isComplementBase (c : ascii) : bool :=
  isATGC c || Ascii.eqb c "N".

(** A character of raw input that does not stand in the way of validity:
    it is dropped by cleaning, or it is one of a, t, g, c in either case. *)
Definition acceptsChar (ch : ascii) : bool :=
  negb (isLetter ch) || isATGC (upperChar ch).

(** Where a forward primer of a pair sits on the cleaned template [s] and
    what it holds. *)
Definition forwardPlaced (s : string) (config : Config) (f : CandidatePrimer) : Prop :=
  isValid (props f) = true /\
  seq (props f) = substring s (start f) (end_ f + 1) /\
  cleanSeq (props f) = seq (props f) /\
  isSequence (seq (props f)) /\
  0 <= start f <= end_ f /\ end_ f < strLen s /\
  start f < strLen s - minProd config.

(** Where a reverse primer of a pair sits on the cleaned template [s] and
    what it holds. *)
Definition reversePlaced (s : string) (config : Config) (r : CandidatePrimer) : Prop :=
  isValid (props r) = true /\
  seq (props r) = reverseComplement (substring s (start r) (end_ r + 1)) /\
  cleanSeq (props r) = seq (props r) /\
  isSequence (seq (props r)) /\
  1 <= start r <= end_ r /\ end_ r < strLen s /\
  minProd config <= end_ r.

(** The guards of the pairing loop, all passed. *)
Definition pairGuards (config : Config) (f r : CandidatePrimer) : Prop :=
  start f < end_ r /\
  minProd config <= end_ r - start f + 1 <= maxProd config /\
  (minTm config <= tmNN (props f) <= maxTm config)%R /\
  (minTm config <= tmNN (props r) <= maxTm config)%R /\
  (Rabs (tmNN (props f) - tmNN (props r)) <= 5)%R.

(** The bookkeeping fields of a pair. *)
Definition pairBookkeeping (config : Config) (p : PrimerPair) : Prop :=
  let f := forward p in
  let r := reverse p in
  id p = numberToString (start f) ++ "-" ++ numberToString (end_ r) /\
  tmDiff p = Rabs (tmNN (props f) - tmNN (props r)) /\
  (0 <= tmDiff p <= 5)%R /\
  (2 * tmDiff p <= score p)%R /\
  (score p <= Rabs (tmNN (props f) - optTm config)
              + Rabs (tmNN (props r) - optTm config) + 24)%R.

(** * Properties *)

(** ** The model on concrete inputs *)

Example cleanSequence_strips : cleanSequence "1 agct" = "AGCT".
Proof. reflexivity. Qed.

Example cleanSequence_keeps_letters : cleanSequence "5'-atg cNx-3'" = "ATGCNX".
Proof. reflexivity. Qed.

Example reverseComplement_AACG : reverseComplement "AACG" = "CGTT".
Proof. reflexivity. Qed.

Example reverseComplement_other_letters : reverseComplement "AUNX" = "NNAT".
Proof. reflexivity. Qed.

Example substring_swaps : substring "ACGTAC" 4 1 = "CGT".
Proof. reflexivity. Qed.

Example substring_clamps : substring "ACGT" (-3) 9 = "ACGT".
Proof. reflexivity. Qed.

Example slice_window_example : slice "ACGT" 1 3 = "CG".
Proof. reflexivity. Qed.

Example numberToString_example : (numberToString 12 ++ "-" ++ numberToString 40) = "12-40".
Proof. reflexivity. Qed.

Example calculatePrimerProps_GAATTC :
  let p := calculatePrimerProps "GAATTC" 500 in
  isValid p = true /\ length p = 6 /\ gc p = (100 / 3)%R /\ tmBasic p = 16%R /\
  molecularWeight p = (2 * 313.2 + 289.2 + 329.2 + 2 * 304.2 - 61.96)%R.
Proof.
  repeat split.
  - change (gc (calculatePrimerProps "GAATTC" 500)) with (IZR 2 / IZR 6 * 100)%R. lra.
  - change (molecularWeight (calculatePrimerProps "GAATTC" 500))
      with (IZR 2 * 313.2 + IZR 1 * 289.2 + IZR 1 * 329.2 + IZR 2 * 304.2 - 61.96)%R.
    lra.
Qed.

Example calculatePrimerProps_ATGX :
  let p := calculatePrimerProps "ATGX" 500 in
  isValid p = false /\ error p = Some "Contains non-ATGC" /\ length p = 4.
Proof. repeat split. Qed.

Example calculatePrimerProps_empty :
  let p := calculatePrimerProps "12 -" 500 in
  isValid p = false /\ error p = None /\ length p = 0 /\ cleanSeq p = "".
Proof. repeat split. Qed.

(** ** Comparisons, ranges and sorting *)

Lemma Rleb_true (x y : R) : Rleb x y = true <-> (x <= y)%R.
Proof. unfold Rleb. destruct (Rle_dec x y); split; intros; try discriminate; tauto. Qed.

Lemma Rleb_false (x y : R) : Rleb x y = false <-> (y < x)%R.
Proof.
  unfold Rleb. destruct (Rle_dec x y); split; intros; try discriminate; try reflexivity; lra.
Qed.

Lemma Rltb_true (x y : R) : Rltb x y = true <-> (x < y)%R.
Proof. unfold Rltb. destruct (Rlt_dec x y); split; intros; try discriminate; tauto. Qed.

Lemma Rltb_false (x y : R) : Rltb x y = false <-> (y <= x)%R.
Proof.
  unfold Rltb. destruct (Rlt_dec x y); split; intros; try discriminate; try reflexivity; lra.
Qed.

Lemma In_range (z lo hi : Z) : In z (range lo hi) <-> lo <= z < hi.
Proof.
  unfold range. rewrite in_map_iff. split.
  - intros (k & <- & Hk). apply in_seq in Hk. lia.
  - intros H. exists (Z.to_nat (z - lo)). split; [lia|].
    apply in_seq. lia.
Qed.

Lemma range_empty (lo hi : Z) : hi <= lo -> range lo hi = [].
Proof.
  intros H. unfold range. replace (Z.to_nat (hi - lo)) with 0%nat by lia. reflexivity.
Qed.

Section SortFacts.
Context {A : Type} (cmp : A -> A -> R).

Lemma insertBy_In (x y : A) (l : list A) :
  In y (insertBy cmp x l) <-> y = x \/ In y l.
Proof.
  induction l as [|z l IH]; simpl.
  - intuition congruence.
  - destruct (Rleb (cmp x z) 0); simpl; [intuition congruence|].
    rewrite IH. intuition congruence.
Qed.

Lemma sortBy_In (y : A) (l : list A) : In y (sortBy cmp l) <-> In y l.
Proof.
  induction l as [|x l IH]; simpl; [tauto|].
  rewrite insertBy_In, IH. intuition congruence.
Qed.

Lemma insertBy_length (x : A) (l : list A) :
  List.length (insertBy cmp x l) = S (List.length l).
Proof.
  induction l as [|z l IH]; simpl; [reflexivity|].
  destruct (Rleb (cmp x z) 0); simpl; congruence.
Qed.

Lemma sortBy_length (l : list A) : List.length (sortBy cmp l) = List.length l.
Proof.
  induction l as [|x l IH]; simpl; [reflexivity|].
  rewrite insertBy_length. congruence.
Qed.

Hypothesis cmp_total : forall x y, (0 < cmp x y)%R -> (cmp y x <= 0)%R.

Lemma insertBy_HdRel (a x : A) (l : list A) :
  before cmp a x -> HdRel (before cmp) a l -> HdRel (before cmp) a (insertBy cmp x l).
Proof.
  intros Hax Hal. destruct l as [|z l]; simpl.
  - constructor. exact Hax.
  - destruct (Rleb (cmp x z) 0); constructor; [exact Hax|].
    inversion Hal; assumption.
Qed.

Lemma insertBy_Sorted (x : A) (l : list A) :
  Sorted (before cmp) l -> Sorted (before cmp) (insertBy cmp x l).
Proof.
  induction 1 as [|z l Hs IH Hhd]; simpl.
  - repeat constructor.
  - destruct (Rleb (cmp x z) 0) eqn:E.
    + apply Rleb_true in E.
      constructor; [constructor; assumption | constructor; exact E].
    + apply Rleb_false in E. constructor; [exact IH|].
      apply insertBy_HdRel; [apply cmp_total; exact E | exact Hhd].
Qed.

Lemma sortBy_Sorted (l : list A) : Sorted (before cmp) (sortBy cmp l).
Proof.
  induction l as [|x l IH]; simpl; [constructor|].
  apply insertBy_Sorted. exact IH.
Qed.
End SortFacts.

Lemma Sorted_firstn {A : Type} (R : A -> A -> Prop) (n : nat) (l : list A) :
  Sorted R l -> Sorted R (firstn n l).
Proof.
  revert l. induction n as [|n IH]; intros l Hs; simpl; [constructor|].
  destruct l as [|x l]; [constructor|].
  inversion Hs as [|? ? Hs' Hhd]; subst.
  constructor; [apply IH; exact Hs'|].
  destruct n; simpl; [constructor|].
  inversion Hhd; subst; simpl; constructor; assumption.
Qed.

Lemma In_firstn {A : Type} (n : nat) (x : A) (l : list A) :
  In x (firstn n l) -> In x l.
Proof.
  intros H. rewrite <- (firstn_skipn n l). apply in_or_app. left. exact H.
Qed.

(** ** Reverse complement *)

Lemma isATGC_cases (c : ascii) :
  isATGC c = true -> (c = "A" \/ c = "T" \/ c = "G" \/ c = "C")%char.
Proof.
  unfold isATGC. rewrite !orb_true_iff, !Ascii.eqb_eq. tauto.
Qed.

Lemma getComplement_involutive (c : ascii) :
  isATGC c = true -> getComplement (getComplement c) = c.
Proof.
  intros H. destruct (isATGC_cases c H) as [-> | [-> | [-> | ->]]]; reflexivity.
Qed.

Lemma getComplement_ATGC (c : ascii) :
  isATGC c = true -> isATGC (getComplement c) = true.
Proof.
  intros H. destruct (isATGC_cases c H) as [-> | [-> | [-> | ->]]]; reflexivity.
Qed.

(** C7. For every sequence over the alphabet A, T, G, C, the reverse
    complement of its reverse complement is the sequence itself. *)
Theorem reverseComplement_involutive (s : string) :
  isSequence s -> reverseComplement (reverseComplement s) = s.
Proof.
  unfold isSequence, reverseComplement. intros H.
  rewrite list_ascii_of_string_of_list_ascii.
  rewrite <- map_rev, rev_involutive, map_map.
  rewrite <- (string_of_list_ascii_of_string s) at 2. f_equal.
  rewrite <- (map_id (list_ascii_of_string s)) at 2.
  apply map_ext_in. intros c Hc. apply getComplement_involutive.
  rewrite forallb_forall in H. apply H. exact Hc.
Qed.

Lemma reverseComplement_involutive_witness :
  isSequence "GATTACA" /\ reverseComplement (reverseComplement "GATTACA") = "GATTACA".
Proof.
  split; [reflexivity | apply reverseComplement_involutive; reflexivity].
Defined.

(** ** The short-template exits of designPrimers *)

(** C6. A template whose cleaned length is below [minProd] yields no pair. *)
Theorem designPrimers_short_template (template : string) (config : Config) :
  strLen (cleanSequence template) < minProd config ->
  designPrimers template config = [].
Proof.
  intros H. unfold designPrimers.
  apply Z.ltb_lt in H. rewrite H. reflexivity.
Qed.

Lemma designPrimers_short_template_witness :
  strLen (cleanSequence "atgc atgc at") < 100 /\
  designPrimers "atgc atgc at" (mkConfig 100 1000 18 24 55 65 60) = [].
Proof.
  split; [reflexivity | apply designPrimers_short_template; reflexivity].
Defined.

Lemma forwardScan_empty (len : Z) (config : Config) :
  len <= minProd config -> forwardScan len config = [].
Proof.
  intros H. unfold forwardScan. rewrite range_empty by lia. reflexivity.
Qed.

(** C9. A template whose cleaned length equals [minProd] yields no pair: the
    forward scan visits no start index. *)
Theorem designPrimers_exact_template (template : string) (config : Config) :
  strLen (cleanSequence template) = minProd config ->
  designPrimers template config = [].
Proof.
  intros H. unfold designPrimers.
  destruct (strLen (cleanSequence template) <? minProd config); [reflexivity|].
  unfold allPairs, topFwd, forwardCandidates.
  rewrite forwardScan_empty by lia. reflexivity.
Qed.

Lemma designPrimers_exact_template_witness :
  strLen (cleanSequence "GCGCGCATAT") = 10 /\
  designPrimers "GCGCGCATAT" (mkConfig 10 1000 2 4 (-300) 300 0) = [].
Proof.
  split; [reflexivity | apply designPrimers_exact_template; reflexivity].
Defined.

(** ** Ranking *)

(** C3. The result of designPrimers is in ascending order of score, each
    entry's score at most its successor's, and holds at most 20 pairs. *)
Theorem designPrimers_sorted_capped (template : string) (config : Config) :
  Sorted (fun a b => (score a <= score b)%R) (designPrimers template config) /\
  (List.length (designPrimers template config) <= 20)%nat.
Proof.
  unfold designPrimers.
  destruct (strLen (cleanSequence template) <? minProd config).
  - split; [constructor | simpl; lia].
  - split; [| apply firstn_le_length].
    apply Sorted_firstn.
    set (cmp := fun a b : PrimerPair => (score a - score b)%R).
    assert (Hs : Sorted (before cmp) (sortBy cmp (allPairs (cleanSequence template) config))).
    { apply sortBy_Sorted. intros x y. unfold cmp. lra. }
    revert Hs. generalize (sortBy cmp (allPairs (cleanSequence template) config)).
    intros l Hs. induction Hs as [|x l' Hs' IH Hhd]; constructor; [exact IH|].
    destruct Hhd as [|y l'' Hxy]; constructor.
    unfold before, cmp in Hxy. lra.
Qed.

(** ** Invalid input *)

(** C4, as stated, fails: for "ATGX" the record carries the cleaned length 4. *)
Lemma invalid_record_length_not_zero : ~ invalid_record_all_zero "ATGX" 500.
Proof.
  unfold invalid_record_all_zero. intros H.
  destruct H as (_ & Hlen & _); [right; reflexivity|].
  discriminate Hlen.
Qed.

(** C4, amended. On rejected input the record has [isValid = false], its
    [gc], [molecularWeight], [tmBasic] and [tmNN] are zero, and [length] is
    the length of the cleaned input (zero when nothing is left). *)
Theorem calculatePrimerProps_rejected (rawSeq : string) (c : R) :
  rejected rawSeq ->
  let p := calculatePrimerProps rawSeq c in
  isValid p = false /\ length p = strLen (cleanSequence rawSeq) /\
  gc p = 0%R /\ molecularWeight p = 0%R /\ tmBasic p = 0%R /\ tmNN p = 0%R.
Proof.
  intros H. unfold calculatePrimerProps.
  destruct (String.eqb (cleanSequence rawSeq) "") eqn:E.
  - apply String.eqb_eq in E. rewrite E. simpl. repeat split; reflexivity.
  - destruct H as [H | H].
    + apply String.eqb_neq in E. contradiction.
    + rewrite H. simpl. repeat split; reflexivity.
Qed.

Lemma calculatePrimerProps_rejected_witness :
  rejected "atg x" /\
  let p := calculatePrimerProps "atg x" 500 in
  isValid p = false /\ length p = strLen (cleanSequence "atg x") /\
  gc p = 0%R /\ molecularWeight p = 0%R /\ tmBasic p = 0%R /\ tmNN p = 0%R.
Proof.
  split; [right; reflexivity | apply calculatePrimerProps_rejected; right; reflexivity].
Defined.

(** ** Cleaning *)

Lemma calculatePrimerProps_seq (rawSeq : string) (c : R) :
  seq (calculatePrimerProps rawSeq c) = rawSeq.
Proof.
  unfold calculatePrimerProps.
  destruct (String.eqb _ _); [reflexivity|].
  destruct (hasNonATGC _); reflexivity.
Qed.

(** C8. calculatePrimerProps is invariant under input cleaning: two inputs
    with the same cleaned form, at the same concentration, yield identical
    properties (cleaned sequence, length, GC percentage, both melting
    temperatures, molecular weight, validity and error tag), as "agct" and
    "AGCT" do, and "1 agct" and "agct"; the [seq] field of each record holds
    the raw input it was given. *)
Theorem calculatePrimerProps_cleaning_invariant (s1 s2 : string) (c : R) :
  cleanSequence s1 = cleanSequence s2 ->
  sameProperties (calculatePrimerProps s1 c) (calculatePrimerProps s2 c) /\
  seq (calculatePrimerProps s1 c) = s1 /\ seq (calculatePrimerProps s2 c) = s2.
Proof.
  intros H. split; [| split; apply calculatePrimerProps_seq].
  unfold calculatePrimerProps. rewrite H.
  destruct (String.eqb (cleanSequence s2) ""); [repeat split|].
  destruct (hasNonATGC (cleanSequence s2)); repeat split.
Qed.

Lemma calculatePrimerProps_cleaning_invariant_witness :
  (cleanSequence "agct" = cleanSequence "AGCT" /\
   sameProperties (calculatePrimerProps "agct" 500) (calculatePrimerProps "AGCT" 500)) /\
  (cleanSequence "1 agct" = cleanSequence "agct" /\
   sameProperties (calculatePrimerProps "1 agct" 500) (calculatePrimerProps "agct" 500)).
Proof.
  split; (split; [reflexivity | apply calculatePrimerProps_cleaning_invariant; reflexivity]).
Defined.

(** ** Strings: lengths and contents *)

Lemma length_string_of_list_ascii (l : list ascii) :
  String.length (string_of_list_ascii l) = List.length l.
Proof. induction l; simpl; congruence. Qed.

Lemma length_list_ascii_of_string (s : string) :
  List.length (list_ascii_of_string s) = String.length s.
Proof. induction s; simpl; congruence. Qed.

Lemma substring_length (s : string) (a b : Z) :
  0 <= a <= b -> b <= strLen s -> strLen (substring s a b) = b - a.
Proof.
  intros Hab Hb. unfold substring, strLen, clampIndex in *.
  rewrite length_string_of_list_ascii, length_firstn, length_skipn.
  rewrite length_list_ascii_of_string. lia.
Qed.

Lemma substring_chars (s : string) (a b : Z) (c : ascii) :
  In c (list_ascii_of_string (substring s a b)) -> In c (list_ascii_of_string s).
Proof.
  unfold substring. rewrite list_ascii_of_string_of_list_ascii.
  intros H. apply In_firstn in H.
  rewrite <- (firstn_skipn (Z.to_nat (Z.min (clampIndex (strLen s) a) (clampIndex (strLen s) b)))
                           (list_ascii_of_string s)).
  apply in_or_app. right. exact H.
Qed.

Lemma upperChar_letter (c : ascii) : isLetter c = true -> isLetter (upperChar c) = true.
Proof.
  destruct c as [b0 b1 b2 b3 b4 b5 b6 b7].
  destruct b0, b1, b2, b3, b4, b5, b6, b7; intros H; try reflexivity; discriminate H.
Qed.

Lemma getComplement_letter (c : ascii) : isLetter (getComplement c) = true.
Proof.
  unfold getComplement, complementMap, lookupChar.
  repeat match goal with |- context [Ascii.eqb ?x ?y] => destruct (Ascii.eqb x y) end;
    reflexivity.
Qed.

Lemma cleanSequence_lettersOnly (s : string) : lettersOnly (cleanSequence s).
Proof.
  unfold lettersOnly, cleanSequence, toUpperCase, stripNonLetters. intros c.
  rewrite !list_ascii_of_string_of_list_ascii, in_map_iff.
  intros (x & <- & Hx). apply filter_In in Hx. apply upperChar_letter. tauto.
Qed.

Lemma substring_lettersOnly (s : string) (a b : Z) :
  lettersOnly s -> lettersOnly (substring s a b).
Proof. intros H c Hc. apply H. eapply substring_chars. exact Hc. Qed.

Lemma reverseComplement_lettersOnly (s : string) : lettersOnly (reverseComplement s).
Proof.
  unfold lettersOnly, reverseComplement. intros c.
  rewrite list_ascii_of_string_of_list_ascii, in_map_iff.
  intros (x & <- & _). apply getComplement_letter.
Qed.

Lemma reverseComplement_length (s : string) : strLen (reverseComplement s) = strLen s.
Proof.
  unfold strLen, reverseComplement.
  rewrite length_string_of_list_ascii, length_map, length_rev, length_list_ascii_of_string.
  reflexivity.
Qed.

Lemma filter_all {A : Type} (f : A -> bool) (l : list A) :
  (forall x, In x l -> f x = true) -> filter f l = l.
Proof.
  induction l as [|x l IH]; simpl; intros H; [reflexivity|].
  rewrite (H x) by tauto. f_equal. apply IH. intros y Hy. apply H. tauto.
Qed.

Lemma cleanSequence_length (s : string) :
  lettersOnly s -> strLen (cleanSequence s) = strLen s.
Proof.
  intros H. unfold strLen, cleanSequence, toUpperCase, stripNonLetters.
  rewrite length_string_of_list_ascii, list_ascii_of_string_of_list_ascii, length_map.
  rewrite filter_all by exact H. rewrite length_list_ascii_of_string. reflexivity.
Qed.

(** ** Where the pairs of designPrimers come from *)

Lemma range_cons (lo hi : Z) : lo < hi -> range lo hi = lo :: range (lo + 1) hi.
Proof.
  intros H. unfold range.
  replace (Z.to_nat (hi - lo)) with (S (Z.to_nat (hi - (lo + 1)))) by lia.
  simpl. f_equal; [lia|].
  rewrite <- seq_shift, map_map. apply map_ext. intros k. lia.
Qed.

(** The break of the forward scan cuts an ascending run of lengths exactly
    at the lengths that still fit. *)
Lemma forwardLengths_range (len i l lo hi : Z) :
  In l (forwardLengths len i (range lo hi)) <-> lo <= l < hi /\ i + l <= len.
Proof.
  remember (Z.to_nat (hi - lo)) as n eqn:Hn. revert lo Hn.
  induction n as [|n IH]; intros lo Hn.
  - rewrite range_empty by lia. simpl. lia.
  - rewrite range_cons by lia. simpl.
    destruct (i + lo >? len) eqn:E.
    + simpl. lia.
    + simpl. rewrite IH by lia. lia.
Qed.

Lemma forwardScan_spec (len : Z) (config : Config) (i l : Z) :
  In (i, l) (forwardScan len config) <->
  0 <= i < len - minProd config /\
  Z.of_nat (minLen config) <= l <= Z.of_nat (maxLen config) /\
  i + l <= len.
Proof.
  unfold forwardScan, lengths. rewrite in_flat_map. split.
  - intros (i' & Hi' & Hin). apply in_map_iff in Hin.
    destruct Hin as (l' & Heq & Hl'). inversion Heq; subst.
    apply In_range in Hi'. apply forwardLengths_range in Hl'. lia.
  - intros (Hi & Hl & Hfit). exists i. split; [apply In_range; lia|].
    apply in_map. apply forwardLengths_range. lia.
Qed.

Lemma reverseScan_spec (len : Z) (config : Config) (i l : Z) :
  In (i, l) (reverseScan len config) <->
  minProd config <= i < len /\
  Z.of_nat (minLen config) <= l <= Z.of_nat (maxLen config) /\
  0 <= i - l.
Proof.
  unfold reverseScan, lengths. rewrite in_flat_map. split.
  - intros (i' & Hi' & Hin). apply in_map_iff in Hin.
    destruct Hin as (l' & Heq & Hl'). inversion Heq; subst.
    apply In_range in Hi'. apply filter_In in Hl'. destruct Hl' as [Hl' Hge].
    apply In_range in Hl'. apply negb_true_iff, Z.ltb_ge in Hge. lia.
  - intros (Hi & Hl & Hge). exists i. split; [apply In_range; lia|].
    apply in_map. apply filter_In. split; [apply In_range; lia|].
    apply negb_true_iff, Z.ltb_ge. lia.
Qed.

(** What the loose pre-filter lets through. *)
Lemma looseKeep_spec (config : Config) (p : PrimerResult) :
  looseKeep config p = true <->
  isValid p = true /\ (minTm config - 5 <= tmNN p <= maxTm config + 5)%R.
Proof.
  unfold looseKeep. rewrite !andb_true_iff, !Rleb_true. tauto.
Qed.

(** What a pair that passed every guard of the pairing loop looks like. *)
Lemma tryPair_spec (config : Config) (f r : CandidatePrimer) (p : PrimerPair) :
  In p (tryPair config f r) ->
  forward p = f /\ reverse p = r /\
  start f < end_ r /\
  productSize p = end_ r - start f + 1 /\
  minProd config <= productSize p <= maxProd config /\
  (minTm config <= tmNN (props f) <= maxTm config)%R /\
  (minTm config <= tmNN (props r) <= maxTm config)%R /\
  (Rabs (tmNN (props f) - tmNN (props r)) <= 5)%R.
Proof.
  unfold tryPair, Math_abs.
  destruct (end_ r <=? start f) eqn:E1; [intros []|].
  destruct ((end_ r - start f + 1 <? minProd config) ||
            (end_ r - start f + 1 >? maxProd config)) eqn:E2; [intros []|].
  destruct (Rltb (tmNN (props f)) (minTm config) ||
            Rltb (maxTm config) (tmNN (props f))) eqn:E3; [intros []|].
  destruct (Rltb (tmNN (props r)) (minTm config) ||
            Rltb (maxTm config) (tmNN (props r))) eqn:E4; [intros []|].
  destruct (Rltb 5 (Rabs (tmNN (props f) - tmNN (props r)))) eqn:E5; [intros []|].
  intros [<- | []]. simpl.
  apply Z.leb_gt in E1.
  apply orb_false_iff in E2. destruct E2 as [E2a E2b].
  apply Z.ltb_ge in E2a. rewrite Z.gtb_ltb in E2b. apply Z.ltb_ge in E2b.
  apply orb_false_iff in E3. destruct E3 as [E3a E3b].
  apply orb_false_iff in E4. destruct E4 as [E4a E4b].
  apply Rltb_false in E3a, E3b, E4a, E4b, E5.
  repeat split; try assumption; try lia.
Qed.

Lemma designPrimers_In (template : string) (config : Config) (p : PrimerPair) :
  In p (designPrimers template config) ->
  exists f r,
    In f (forwardCandidates (cleanSequence template) config) /\
    In r (reverseCandidates (cleanSequence template) config) /\
    In p (tryPair config f r).
Proof.
  unfold designPrimers.
  destruct (strLen (cleanSequence template) <? minProd config); [intros []|].
  intros H. apply In_firstn, sortBy_In in H. unfold allPairs in H.
  apply in_flat_map in H. destruct H as (f & Hf & H).
  apply in_flat_map in H. destruct H as (r & Hr & H).
  exists f, r. split; [|split; [|exact H]].
  - apply In_firstn, sortBy_In in Hf. exact Hf.
  - apply In_firstn, sortBy_In in Hr. exact Hr.
Qed.

(** ** The pairing invariant *)

(** C1. Every pair designPrimers returns has its reverse primer ending after
    the forward primer starts, a product size equal to
    [reverse.end - forward.start + 1] and within [minProd, maxProd], both
    nearest-neighbour melting temperatures within [minTm, maxTm], and the
    two temperatures at most 5 apart. *)
Theorem designPrimers_pair_invariant (template : string) (config : Config) :
  Forall (pairInvariant config) (designPrimers template config).
Proof.
  apply Forall_forall. intros p Hp.
  apply designPrimers_In in Hp. destruct Hp as (f & r & _ & _ & Hp).
  apply tryPair_spec in Hp.
  destruct Hp as (Hf & Hr & H1 & H2 & H3 & H4 & H5 & H6).
  unfold pairInvariant. rewrite Hf, Hr.
  repeat split; try tauto; try lia.
Qed.

(** ** The primers inside a pair *)

Lemma calculatePrimerProps_valid (rawSeq : string) (c : R) :
  isValid (calculatePrimerProps rawSeq c) = true ->
  cleanSeq (calculatePrimerProps rawSeq c) = cleanSequence rawSeq /\
  length (calculatePrimerProps rawSeq c) = strLen (cleanSequence rawSeq) /\
  cleanSequence rawSeq <> "" /\
  hasNonATGC (cleanSequence rawSeq) = false.
Proof.
  unfold calculatePrimerProps.
  destruct (String.eqb (cleanSequence rawSeq) "") eqn:E; [discriminate|].
  destruct (hasNonATGC (cleanSequence rawSeq)) eqn:E'; [discriminate|].
  simpl. intros _. apply String.eqb_neq in E. tauto.
Qed.

Lemma forwardCandidates_invariant (s : string) (config : Config) (f : CandidatePrimer) :
  lettersOnly s ->
  In f (forwardCandidates s config) -> primerInvariant config sense f.
Proof.
  intros Hs Hf. unfold forwardCandidates in Hf.
  apply filter_In in Hf. destruct Hf as [Hf Hkeep].
  apply in_map_iff in Hf. destruct Hf as ([i l] & <- & Hil).
  apply forwardScan_spec in Hil. apply looseKeep_spec in Hkeep.
  destruct Hkeep as [Hvalid _]. simpl in Hvalid |- *.
  apply calculatePrimerProps_valid in Hvalid.
  destruct Hvalid as (Hclean & Hlen & _ & _).
  unfold primerInvariant. simpl. rewrite Hclean, Hlen.
  rewrite cleanSequence_length by (apply substring_lettersOnly; exact Hs).
  rewrite substring_length by lia. split; [reflexivity | lia].
Qed.

Lemma reverseCandidates_invariant (s : string) (config : Config) (r : CandidatePrimer) :
  In r (reverseCandidates s config) -> primerInvariant config antisense r.
Proof.
  intros Hr. unfold reverseCandidates in Hr.
  apply filter_In in Hr. destruct Hr as [Hr Hkeep].
  apply in_map_iff in Hr. destruct Hr as ([i l] & <- & Hil).
  apply reverseScan_spec in Hil. apply looseKeep_spec in Hkeep.
  destruct Hkeep as [Hvalid _]. simpl in Hvalid |- *.
  apply calculatePrimerProps_valid in Hvalid.
  destruct Hvalid as (Hclean & Hlen & _ & _).
  unfold primerInvariant. simpl. rewrite Hclean, Hlen.
  rewrite cleanSequence_length by apply reverseComplement_lettersOnly.
  rewrite reverseComplement_length.
  rewrite substring_length by lia. split; [reflexivity | lia].
Qed.

(** C10. In every pair designPrimers returns, the forward primer is on the
    sense strand and the reverse primer on the antisense strand; for each of
    the two, [end - start + 1] is the length of its cleaned sequence, and
    its length lies within [minLen, maxLen]. *)
Theorem designPrimers_primer_invariant (template : string) (config : Config) :
  Forall (fun p => primerInvariant config sense (forward p) /\
                   primerInvariant config antisense (reverse p))
         (designPrimers template config).
Proof.
  apply Forall_forall. intros p Hp.
  apply designPrimers_In in Hp. destruct Hp as (f & r & Hf & Hr & Hp).
  apply tryPair_spec in Hp. destruct Hp as (-> & -> & _).
  split.
  - eapply forwardCandidates_invariant; [apply cleanSequence_lettersOnly | exact Hf].
  - eapply reverseCandidates_invariant. exact Hr.
Qed.

(** ** Forward-candidate enumeration *)

(** C5, as stated, fails: with six bases and [minProd = 4] the start index
    [2 = length - minProd] is never visited. *)
Lemma forward_enumeration_stops_early :
  ~ forward_enumeration_inclusive "ACGTAC" (mkConfig 4 6 2 2 55 65 60).
Proof.
  unfold forward_enumeration_inclusive. intros H.
  assert (Hin : In (2, 2) (forwardScan 6 (mkConfig 4 6 2 2 55 65 60))).
  { apply (H 2 2); vm_compute; intuition discriminate. }
  apply forwardScan_spec in Hin. simpl in Hin. lia.
Qed.

(** C5, amended. For every start index [i] with [0 <= i < length - minProd]
    and every primer length [l] in [minLen, maxLen] with [i + l <= length],
    the forward scan visits the substring at [i] of length [l], and keeps it
    as a forward candidate exactly when it is valid and its nearest-neighbour
    melting temperature lies within [minTm - 5, maxTm + 5]. *)
Theorem forward_enumeration (template : string) (config : Config) (i l : Z) :
  let s := cleanSequence template in
  let len := strLen s in
  0 <= i < len - minProd config ->
  Z.of_nat (minLen config) <= l <= Z.of_nat (maxLen config) ->
  i + l <= len ->
  In (i, l) (forwardScan len config) /\ retainedAt s config i l.
Proof.
  intros s len Hi Hl Hfit.
  assert (Hin : In (i, l) (forwardScan len config)) by (apply forwardScan_spec; lia).
  split; [exact Hin|].
  unfold retainedAt, forwardCandidates.
  rewrite filter_In, looseKeep_spec. split; [tauto|].
  intros H. split; [|exact H]. apply in_map. exact Hin.
Qed.

Lemma forward_enumeration_witness :
  let config := mkConfig 4 6 2 2 55 65 60 in
  let s := cleanSequence "ACGTAC" in
  (0 <= 1 < strLen s - 4 /\ 2 <= 2 <= 2 /\ 1 + 2 <= strLen s) /\
  In (1, 2) (forwardScan (strLen s) config) /\ retainedAt s config 1 2.
Proof.
  split; [vm_compute; intuition discriminate|].
  apply (forward_enumeration "ACGTAC" (mkConfig 4 6 2 2 55 65 60) 1 2);
    vm_compute; intuition discriminate.
Defined.

(** ** Nearest-neighbour melting temperature *)

(** The table covers all sixteen dinucleotides over A, T, G, C. *)
Lemma NN_PARAMS_complete (a b : ascii) :
  isATGC a = true -> isATGC b = true ->
  lookupPair (String a (String b "")) NN_PARAMS <> None.
Proof.
  intros Ha Hb.
  destruct (isATGC_cases a Ha) as [-> | [-> | [-> | ->]]];
    destruct (isATGC_cases b Hb) as [-> | [-> | [-> | ->]]]; simpl; discriminate.
Qed.

Lemma fold_left_map_compose {A B C : Type} (f : A -> C -> A) (g : B -> C)
      (l : list B) (acc : A) :
  fold_left f (map g l) acc = fold_left (fun a x => f a (g x)) l acc.
Proof. revert acc. induction l as [|x l IH]; intros acc; simpl; [reflexivity | apply IH]. Qed.

Lemma fold_left_ext_In {A B : Type} (f g : A -> B -> A) (l : list B) (acc : A) :
  (forall a x, In x l -> f a x = g a x) ->
  fold_left f l acc = fold_left g l acc.
Proof.
  revert acc. induction l as [|x l IH]; intros acc H; simpl; [reflexivity|].
  rewrite H by (left; reflexivity). apply IH. intros a y Hy. apply H. right. exact Hy.
Qed.

Lemma slice_window (s : string) (k : nat) :
  (k + 2 <= String.length s)%nat ->
  slice s (Z.of_nat k) (Z.of_nat k + 2) =
  string_of_list_ascii (firstn 2 (skipn k (list_ascii_of_string s))).
Proof.
  intros H. unfold slice, sliceIndex, strLen.
  destruct (Z.of_nat k <? 0) eqn:E1; [apply Z.ltb_lt in E1; lia|].
  destruct (Z.of_nat k + 2 <? 0) eqn:E2; [apply Z.ltb_lt in E2; lia|].
  replace (Z.to_nat (Z.min (Z.of_nat k) (Z.of_nat (String.length s)))) with k by lia.
  replace (Z.to_nat _) with 2%nat by lia.
  reflexivity.
Qed.

(** The index loop over [slice(i, i + 2)] reads the adjacent pairs in order. *)
Lemma window_loop_pairs (l : list ascii) (acc : Thermo) :
  fold_left
    (fun a k => match lookupPair (string_of_list_ascii (firstn 2 (skipn k l))) NN_PARAMS with
                | Some p => addThermo a p
                | None => a
                end)
    (List.seq 0 (List.length l - 1)) acc
  = fold_left pairStep (adjacentPairs l) acc.
Proof.
  revert acc. induction l as [|a l IH]; intros acc; [reflexivity|].
  destruct l as [|b l]; [reflexivity|].
  replace (List.length (a :: b :: l) - 1)%nat with (S (List.length (b :: l) - 1))
    by (simpl; lia).
  cbn [List.seq fold_left adjacentPairs].
  rewrite <- seq_shift, fold_left_map_compose.
  rewrite <- IH. reflexivity.
Qed.

Lemma nnLoop_pairs (s : string) (acc : Thermo) :
  fold_left (nnStep s) (range 0 (strLen s - 1)) acc
  = fold_left pairStep (adjacentPairs (list_ascii_of_string s)) acc.
Proof.
  rewrite <- window_loop_pairs. unfold range, strLen.
  rewrite fold_left_map_compose, length_list_ascii_of_string.
  replace (Z.to_nat (Z.of_nat (String.length s) - 1 - 0)) with (String.length s - 1)%nat by lia.
  apply fold_left_ext_In. intros a k Hk. apply in_seq in Hk.
  unfold nnStep. rewrite Z.add_0_l, slice_window by lia. reflexivity.
Qed.

Lemma pairStep_sum (ps : list (ascii * ascii)) (acc : Thermo) :
  dH (fold_left pairStep ps acc) = (dH acc + dH (sumThermo (map dinucleotide ps)))%R /\
  dS (fold_left pairStep ps acc) = (dS acc + dS (sumThermo (map dinucleotide ps)))%R.
Proof.
  revert acc. induction ps as [|ab ps IH]; intros acc; simpl.
  - split; lra.
  - destruct (IH (pairStep acc ab)) as [IHh IHs]. rewrite IHh, IHs.
    unfold pairStep, dinucleotide.
    destruct (lookupPair _ NN_PARAMS); simpl; split; lra.
Qed.

Lemma initTerm_terminalPenalty (c : ascii) : initTerm (Some c) = terminalPenalty c.
Proof. reflexivity. Qed.

Lemma charAt_first (s : string) :
  s <> "" -> charAt s 0 = Some (hd "A"%char (list_ascii_of_string s)).
Proof. destruct s; [congruence | reflexivity]. Qed.

Lemma nth_error_last {A : Type} (l : list A) (d : A) :
  l <> [] -> nth_error l (List.length l - 1) = Some (last l d).
Proof.
  induction l as [|x l IH]; [congruence|]. intros _.
  destruct l as [|y l]; [reflexivity|].
  replace (List.length (x :: y :: l) - 1)%nat with (S (List.length (y :: l) - 1))
    by (simpl; lia).
  cbn [nth_error]. rewrite IH by discriminate. reflexivity.
Qed.

Lemma charAt_last (s : string) :
  s <> "" -> charAt s (strLen s - 1) = Some (last (list_ascii_of_string s) "A"%char).
Proof.
  intros H. unfold charAt, strLen.
  assert (Hlen : (0 < String.length s)%nat) by (destruct s; [congruence | simpl; lia]).
  destruct (Z.of_nat (String.length s) - 1 <? 0) eqn:E; [apply Z.ltb_lt in E; lia|].
  replace (Z.to_nat (Z.of_nat (String.length s) - 1))
    with (List.length (list_ascii_of_string s) - 1)%nat
    by (rewrite length_list_ascii_of_string; lia).
  apply nth_error_last. destruct s; [congruence | discriminate].
Qed.

Lemma nnTotals_spec (s : string) :
  s <> "" ->
  dH (nnTotals s) = dH (specTotals s) /\ dS (nnTotals s) = dS (specTotals s).
Proof.
  intros H. unfold nnTotals, specTotals.
  rewrite nnLoop_pairs, charAt_first, charAt_last by exact H.
  rewrite !initTerm_terminalPenalty.
  match goal with |- context [fold_left pairStep ?ps ?acc] =>
    destruct (pairStep_sum ps acc) as [Hh Hs] end.
  rewrite Hh, Hs. simpl. split; lra.
Qed.

(** C2. For input whose cleaned form is non-empty and holds only A, T, G, C,
    and any primer concentration [c] in nM, the [tmNN] of the record equals
    (dH * 1000) / (dS + 1.987 * ln (c * 1e-9 / 4)) - 273.15
    + 16.6 * log10 0.05, with dH and dS the sums of the initiation penalty of
    the first base, the initiation penalty of the last base, and the table
    entries of every adjacent base pair. *)
Theorem calculatePrimerProps_tmNN (rawSeq : string) (c : R) :
  cleanSequence rawSeq <> "" ->
  hasNonATGC (cleanSequence rawSeq) = false ->
  isValid (calculatePrimerProps rawSeq c) = true /\
  tmNN (calculatePrimerProps rawSeq c) = specTm (cleanSequence rawSeq) c.
Proof.
  intros Hne Hatgc. unfold calculatePrimerProps.
  apply String.eqb_neq in Hne. rewrite Hne, Hatgc. simpl.
  split; [reflexivity|].
  apply String.eqb_neq in Hne.
  destruct (nnTotals_spec _ Hne) as [Hh Hs].
  unfold nnTm, specTm, Math_log, Math_log10, DEFAULT_CONC_NA_MM.
  rewrite Hh, Hs. replace (50 / 1000)%R with 0.05%R by lra. reflexivity.
Qed.

Lemma calculatePrimerProps_tmNN_witness :
  (cleanSequence "GAATTC" <> "" /\ hasNonATGC (cleanSequence "GAATTC") = false) /\
  isValid (calculatePrimerProps "GAATTC" 500) = true /\
  tmNN (calculatePrimerProps "GAATTC" 500) = specTm (cleanSequence "GAATTC") 500.
Proof.
  split; [split; [discriminate | reflexivity]|].
  apply calculatePrimerProps_tmNN; [discriminate | reflexivity].
Defined.

(** ** A run that finds pairs *)

Lemma In_top {A : Type} (cmp : A -> A -> R) (x : A) (l : list A) :
  In x l -> (List.length l <= MAX_CANDIDATES)%nat ->
  In x (firstn MAX_CANDIDATES (sortBy cmp l)).
Proof.
  intros Hx Hlen. rewrite firstn_all2 by (rewrite sortBy_length; exact Hlen).
  apply sortBy_In. exact Hx.
Qed.

(** A forward and a reverse candidate that pass every guard are paired. *)
Lemma tryPair_pushes (config : Config) (f r : CandidatePrimer) :
  start f < end_ r ->
  minProd config <= end_ r - start f + 1 <= maxProd config ->
  (minTm config <= tmNN (props f) <= maxTm config)%R ->
  (minTm config <= tmNN (props r) <= maxTm config)%R ->
  (Rabs (tmNN (props f) - tmNN (props r)) <= 5)%R ->
  exists p, tryPair config f r = [p] /\ forward p = f /\ reverse p = r.
Proof.
  intros H1 H2 H3 H4 H5. unfold tryPair, Math_abs.
  replace (end_ r <=? start f) with false by (symmetry; apply Z.leb_gt; lia).
  replace (end_ r - start f + 1 <? minProd config) with false
    by (symmetry; apply Z.ltb_ge; lia).
  replace (end_ r - start f + 1 >? maxProd config) with false
    by (symmetry; rewrite Z.gtb_ltb; apply Z.ltb_ge; lia).
  replace (Rltb (tmNN (props f)) (minTm config)) with false
    by (symmetry; apply Rltb_false; lra).
  replace (Rltb (maxTm config) (tmNN (props f))) with false
    by (symmetry; apply Rltb_false; lra).
  replace (Rltb (tmNN (props r)) (minTm config)) with false
    by (symmetry; apply Rltb_false; lra).
  replace (Rltb (maxTm config) (tmNN (props r))) with false
    by (symmetry; apply Rltb_false; lra).
  replace (Rltb 5 (Rabs (tmNN (props f) - tmNN (props r)))) with false
    by (symmetry; apply Rltb_false; lra).
  simpl. eexists. split; [reflexivity|]. split; reflexivity.
Qed.

Lemma designPrimers_nonempty (template : string) (config : Config) :
  minProd config <= strLen (cleanSequence template) ->
  allPairs (cleanSequence template) config <> [] ->
  designPrimers template config <> [].
Proof.
  intros Hlen Hpairs. unfold designPrimers.
  replace (strLen (cleanSequence template) <? minProd config) with false
    by (symmetry; apply Z.ltb_ge; lia).
  intros H. apply (f_equal (@List.length PrimerPair)) in H.
  rewrite length_firstn, sortBy_length in H.
  destruct (allPairs (cleanSequence template) config); [congruence | simpl in H; lia].
Qed.

Lemma ln_scoring_concentration : (ln (500 * 1e-9 / 4) < -11)%R.
Proof.
  replace (500 * 1e-9 / 4)%R with (/ 8000000)%R by lra.
  rewrite ln_Rinv by lra.
  assert (H : (ln (2 ^ 22) < ln 8000000)%R) by (apply ln_increasing; lra).
  rewrite ln_pow in H by lra.
  replace (INR 22) with 22%R in H by (simpl; lra).
  pose proof ln_lt_2. lra.
Qed.

Lemma log10_salt : (-2 < ln (50 / 1000) / ln 10 < -1)%R.
Proof.
  replace (50 / 1000)%R with (/ (2 * 10))%R by lra.
  rewrite ln_Rinv, ln_mult by lra.
  pose proof ln_lt_2 as H2.
  assert (H10 : (ln 2 < ln 10)%R) by (apply ln_increasing; lra).
  assert (Hinv : (ln 10 * / ln 10 = 1)%R) by (field; lra).
  assert (Hpos : (0 < / ln 10)%R) by (apply Rinv_0_lt_compat; lra).
  unfold Rdiv. split; nra.
Qed.

(** The one-base primer "A" at the scoring concentration: valid, and with a
    nearest-neighbour temperature far below zero. *)
Lemma singleBase_props :
  isValid (calculatePrimerProps "A" 500) = true /\
  (-650 <= tmNN (calculatePrimerProps "A" 500) <= -280)%R.
Proof.
  split; [reflexivity|].
  change (tmNN (calculatePrimerProps "A" 500))
    with (nnTm (addThermo (addThermo (mkThermo 0 0) NN_INIT_AT) NN_INIT_AT) 500).
  unfold nnTm, Math_log, Math_log10, DEFAULT_CONC_NA_MM, addThermo, NN_INIT_AT. simpl dH. simpl dS.
  pose proof ln_scoring_concentration as HL.
  pose proof log10_salt as HS.
  set (L := ln (500 * 1e-9 / 4)) in *. set (M := (ln (50 / 1000) / ln 10)%R) in *.
  set (d := (0 + 4.1 + 4.1 + 1.987 * L)%R).
  assert (Hd : (d < -13.6)%R) by (unfold d; lra).
  assert (Hinv : (d * / d = 1)%R) by (field; lra).
  assert (Hneg : (/ d < 0)%R) by (apply Rinv_lt_0_compat; lra).
  unfold Rdiv. split; nra.
Qed.

(** On the three-base template "ATA", with one-base primers and products of
    one to three bases, designPrimers returns at least one pair. *)
Example designPrimers_finds_a_pair :
  designPrimers "ATA" (mkConfig 1 3 1 1 (-650) (-280) (-480)) <> [].
Proof.
  set (config := mkConfig 1 3 1 1 (-650) (-280) (-480)).
  destruct singleBase_props as [Hvalid Htm].
  apply designPrimers_nonempty; [vm_compute; discriminate|].
  change (cleanSequence "ATA") with "ATA".
  set (f := forwardCandidate "ATA" (0, 1)).
  set (r := reverseCandidate "ATA" (1, 1)).
  assert (Hf : In f (topFwd "ATA" config)).
  { apply In_top.
    - apply filter_In. split.
      + apply in_map. apply forwardScan_spec. vm_compute. intuition discriminate.
      + apply looseKeep_spec. split; [exact Hvalid|].
        change (tmNN (props f)) with (tmNN (calculatePrimerProps "A" 500)).
        simpl minTm. simpl maxTm. lra.
    - unfold forwardCandidates.
      eapply Nat.le_trans; [apply filter_length_le|].
      rewrite length_map. vm_compute. lia. }
  assert (Hr : In r (topRev "ATA" config)).
  { apply In_top.
    - apply filter_In. split.
      + apply in_map. apply reverseScan_spec. vm_compute. intuition discriminate.
      + apply looseKeep_spec. split; [exact Hvalid|].
        change (tmNN (props r)) with (tmNN (calculatePrimerProps "A" 500)).
        simpl minTm. simpl maxTm. lra.
    - unfold reverseCandidates.
      eapply Nat.le_trans; [apply filter_length_le|].
      rewrite length_map. vm_compute. lia. }
  destruct (tryPair_pushes config f r) as (p & Hp & _).
  - vm_compute. reflexivity.
  - vm_compute. intuition discriminate.
  - change (tmNN (props f)) with (tmNN (calculatePrimerProps "A" 500)).
    simpl minTm. simpl maxTm. lra.
  - change (tmNN (props r)) with (tmNN (calculatePrimerProps "A" 500)).
    simpl minTm. simpl maxTm. lra.
  - change (tmNN (props f)) with (tmNN (calculatePrimerProps "A" 500)).
    change (tmNN (props r)) with (tmNN (calculatePrimerProps "A" 500)).
    rewrite Rminus_diag, Rabs_R0. lra.
  - intros Hnil.
    assert (Hin : In p (allPairs "ATA" config)).
    { unfold allPairs. apply in_flat_map. exists f. split; [exact Hf|].
      apply in_flat_map. exists r. split; [exact Hr|]. rewrite Hp. left. reflexivity. }
    rewrite Hnil in Hin. exact Hin.
Qed.

(** * Further properties of the engine

    Properties read off the source beyond the specification's claims. *)

(** ** Cleaning *)

Lemma list_ascii_of_string_app (s1 s2 : string) :
  list_ascii_of_string (s1 ++ s2) = (list_ascii_of_string s1 ++ list_ascii_of_string s2)%list.
Proof. induction s1; simpl; congruence. Qed.

Lemma string_of_list_ascii_app (l1 l2 : list ascii) :
  string_of_list_ascii (l1 ++ l2) = string_of_list_ascii l1 ++ string_of_list_ascii l2.
Proof. induction l1; simpl; congruence. Qed.

Lemma upperChar_upper (c : ascii) : isLetter c = true -> isUpper (upperChar c) = true.
Proof.
  destruct c as [b0 b1 b2 b3 b4 b5 b6 b7].
  destruct b0, b1, b2, b3, b4, b5, b6, b7; intros H; try reflexivity; discriminate H.
Qed.

Lemma isUpper_fixed (c : ascii) :
  isUpper c = true -> isLetter c = true /\ upperChar c = c.
Proof.
  destruct c as [b0 b1 b2 b3 b4 b5 b6 b7].
  destruct b0, b1, b2, b3, b4, b5, b6, b7; intros H;
    try (split; reflexivity); discriminate H.
Qed.

Lemma cleanSequence_upper (s : string) (c : ascii) :
  In c (list_ascii_of_string (cleanSequence s)) -> isUpper c = true.
Proof.
  unfold cleanSequence, toUpperCase, stripNonLetters.
  rewrite !list_ascii_of_string_of_list_ascii, in_map_iff.
  intros (x & <- & Hx). apply filter_In in Hx. apply upperChar_upper. tauto.
Qed.

Lemma cleanSequence_fixed (s : string) :
  (forall c, In c (list_ascii_of_string s) -> isUpper c = true) ->
  cleanSequence s = s.
Proof.
  intros H. unfold cleanSequence, toUpperCase, stripNonLetters.
  rewrite list_ascii_of_string_of_list_ascii.
  rewrite filter_all by (intros c Hc; apply isUpper_fixed; apply H; exact Hc).
  rewrite <- (string_of_list_ascii_of_string s) at 2. f_equal.
  rewrite <- (map_id (list_ascii_of_string s)) at 2.
  apply map_ext_in. intros c Hc. apply isUpper_fixed. apply H. exact Hc.
Qed.

(** X1. Cleaning a cleaned sequence changes nothing. *)
Theorem cleanSequence_idempotent (s : string) :
  cleanSequence (cleanSequence s) = cleanSequence s.
Proof. apply cleanSequence_fixed. apply cleanSequence_upper. Qed.

(** X2. A cleaned sequence holds upper-case ASCII letters only and is never
    longer than the input. *)
Theorem cleanSequence_output (s : string) :
  forallb isUpper (list_ascii_of_string (cleanSequence s)) = true /\
  strLen (cleanSequence s) <= strLen s.
Proof.
  split.
  - apply forallb_forall. apply cleanSequence_upper.
  - unfold strLen, cleanSequence, toUpperCase, stripNonLetters.
    rewrite length_string_of_list_ascii, list_ascii_of_string_of_list_ascii, length_map.
    rewrite <- (length_list_ascii_of_string s).
    apply Nat2Z.inj_le. apply filter_length_le.
Qed.

(** X3. Cleaning distributes over concatenation. *)
Theorem cleanSequence_app (s1 s2 : string) :
  cleanSequence (s1 ++ s2) = cleanSequence s1 ++ cleanSequence s2.
Proof.
  unfold cleanSequence, toUpperCase, stripNonLetters.
  rewrite !list_ascii_of_string_of_list_ascii, list_ascii_of_string_app.
  rewrite filter_app, map_app. apply string_of_list_ascii_app.
Qed.

(** ** Reverse complement on arbitrary strings *)

Lemma getComplement_base (c : ascii) : isComplementBase (getComplement c) = true.
Proof.
  unfold getComplement, complementMap, lookupChar.
  repeat match goal with |- context [Ascii.eqb ?x ?y] => destruct (Ascii.eqb x y) end;
    reflexivity.
Qed.

Lemma getComplement_triple (c : ascii) :
  getComplement (getComplement (getComplement c)) = getComplement c.
Proof.
  destruct c as [b0 b1 b2 b3 b4 b5 b6 b7].
  destruct b0, b1, b2, b3, b4, b5, b6, b7; reflexivity.
Qed.

(** X4. The reverse complement of any string has the length of the string
    and holds only A, T, G, C and N. *)
Theorem reverseComplement_output (s : string) :
  strLen (reverseComplement s) = strLen s /\
  forallb isComplementBase (list_ascii_of_string (reverseComplement s)) = true.
Proof.
  split; [apply reverseComplement_length|].
  apply forallb_forall. unfold reverseComplement. intros c.
  rewrite list_ascii_of_string_of_list_ascii, in_map_iff.
  intros (x & <- & _). apply getComplement_base.
Qed.

Lemma reverseComplement_isSequence (s : string) :
  isSequence s -> isSequence (reverseComplement s).
Proof.
  unfold isSequence, reverseComplement. intros H.
  rewrite list_ascii_of_string_of_list_ascii.
  apply forallb_forall. intros c Hc. apply in_map_iff in Hc.
  destruct Hc as (x & <- & Hx). apply getComplement_ATGC.
  rewrite forallb_forall in H. apply H. apply in_rev. exact Hx.
Qed.

(** X5. The reverse complement of a sequence over A, T, G, C is again one. *)
Theorem reverseComplement_sequence (s : string) :
  isSequence s -> isSequence (reverseComplement s).
Proof. apply reverseComplement_isSequence. Qed.

Lemma reverseComplement_sequence_witness :
  isSequence "GGATCA" /\ isSequence (reverseComplement "GGATCA").
Proof.
  split; [reflexivity | apply reverseComplement_sequence; reflexivity].
Defined.

(** X6. The reverse complement of a concatenation is the concatenation of
    the reverse complements in the opposite order. *)
Theorem reverseComplement_app (s1 s2 : string) :
  reverseComplement (s1 ++ s2) = reverseComplement s2 ++ reverseComplement s1.
Proof.
  unfold reverseComplement.
  rewrite list_ascii_of_string_app, rev_app_distr, map_app.
  apply string_of_list_ascii_app.
Qed.

(** X7. On any string, letters outside A, T, G, C included, three reverse
    complements equal one: U is read as T and every other letter as N, and
    what comes out is stable. *)
Theorem reverseComplement_triple (s : string) :
  reverseComplement (reverseComplement (reverseComplement s)) = reverseComplement s.
Proof.
  unfold reverseComplement.
  rewrite !list_ascii_of_string_of_list_ascii. f_equal.
  rewrite <- !map_rev, rev_involutive, !map_map.
  apply map_ext. intros c. apply getComplement_triple.
Qed.

(** ** The property record *)

Lemma string_of_list_ascii_empty (l : list ascii) :
  String.eqb (string_of_list_ascii l) "" = match l with [] => true | _ => false end.
Proof. destruct l; reflexivity. Qed.

Lemma calculatePrimerProps_flags (rawSeq : string) (c : R) :
  isValid (calculatePrimerProps rawSeq c)
  = negb (String.eqb (cleanSequence rawSeq) "") && negb (hasNonATGC (cleanSequence rawSeq)) /\
  error (calculatePrimerProps rawSeq c)
  = if negb (String.eqb (cleanSequence rawSeq) "") && hasNonATGC (cleanSequence rawSeq)
    then Some "Contains non-ATGC" else None.
Proof.
  unfold calculatePrimerProps.
  destruct (String.eqb (cleanSequence rawSeq) ""); [split; reflexivity|].
  destruct (hasNonATGC (cleanSequence rawSeq)); split; reflexivity.
Qed.

Lemma cleaned_flags (l : list ascii) :
  (match map upperChar (filter isLetter l) with [] => true | _ => false end
   = negb (existsb isLetter l)) /\
  existsb (fun ch => negb (isATGC ch)) (map upperChar (filter isLetter l))
  = negb (forallb acceptsChar l).
Proof.
  induction l as [|x l [IH1 IH2]]; [split; reflexivity|].
  unfold acceptsChar in *. simpl. destruct (isLetter x); simpl.
  - split; [reflexivity|]. rewrite IH2.
    destruct (isATGC (upperChar x)); reflexivity.
  - split; assumption.
Qed.

(** X8. Validity read off the raw input: the record is valid exactly when the
    input has at least one ASCII letter and every one of its letters is a, t,
    g or c in either case; the tag "Contains non-ATGC" is set exactly when
    there is a letter and some letter is another one, and input without any
    letter is rejected with no tag. *)
Theorem calculatePrimerProps_validity (rawSeq : string) (c : R) :
  let chars := list_ascii_of_string rawSeq in
  isValid (calculatePrimerProps rawSeq c)
  = existsb isLetter chars && forallb acceptsChar chars /\
  error (calculatePrimerProps rawSeq c)
  = if existsb isLetter chars && negb (forallb acceptsChar chars)
    then Some "Contains non-ATGC" else None.
Proof.
  intros chars. destruct (calculatePrimerProps_flags rawSeq c) as [Hv He].
  rewrite Hv, He. unfold cleanSequence, toUpperCase, stripNonLetters, hasNonATGC.
  rewrite !list_ascii_of_string_of_list_ascii, string_of_list_ascii_empty.
  destruct (cleaned_flags chars) as [H1 H2]. fold chars. rewrite H1, H2.
  rewrite !negb_involutive. split; reflexivity.
Qed.

Lemma base_counts_total (s : string) :
  hasNonATGC s = false ->
  countBase "A" s + countBase "T" s + countBase "G" s + countBase "C" s = strLen s.
Proof.
  unfold hasNonATGC, countBase, strLen. rewrite <- length_list_ascii_of_string.
  induction (list_ascii_of_string s) as [|x l IH]; [reflexivity|].
  cbn [existsb]. intros H. apply orb_false_iff in H. destruct H as [Hx Hl].
  apply negb_false_iff in Hx. specialize (IH Hl).
  destruct (isATGC_cases x Hx) as [-> | [-> | [-> | ->]]];
    cbn [filter Ascii.eqb Bool.eqb List.length] in *; lia.
Qed.

Lemma countBase_nonneg (b : ascii) (s : string) : 0 <= countBase b s.
Proof. unfold countBase. lia. Qed.

Lemma strLen_pos (s : string) : s <> "" -> 0 < strLen s.
Proof. destruct s; [congruence|]. intros _. unfold strLen. simpl. lia. Qed.

(** The fields of the record on the valid branch. *)
Lemma calculatePrimerProps_fields (rawSeq : string) (c : R) :
  isValid (calculatePrimerProps rawSeq c) = true ->
  let cs := cleanSequence rawSeq in
  let n := strLen cs in
  let g := countBase "G" cs in
  let c' := countBase "C" cs in
  let a := countBase "A" cs in
  let t := countBase "T" cs in
  0 < n /\ a + t + g + c' = n /\
  length (calculatePrimerProps rawSeq c) = n /\
  gc (calculatePrimerProps rawSeq c) = (IZR (g + c') / IZR n * 100)%R /\
  molecularWeight (calculatePrimerProps rawSeq c)
  = (IZR a * 313.2 + IZR c' * 289.2 + IZR g * 329.2 + IZR t * 304.2 - 61.96)%R /\
  tmBasic (calculatePrimerProps rawSeq c)
  = (if n <? 14 then IZR ((a + t) * 2 + (g + c') * 4)
     else (64.9 + 41 * (IZR (g + c') - 16.4) / IZR n)%R) /\
  tmNN (calculatePrimerProps rawSeq c) = nnTm (nnTotals cs) c.
Proof.
  intros Hv. pose proof (calculatePrimerProps_valid rawSeq c Hv) as (_ & _ & Hne & Hatgc).
  cbv zeta. split; [apply strLen_pos; exact Hne|].
  split; [apply base_counts_total; exact Hatgc|].
  unfold calculatePrimerProps.
  apply String.eqb_neq in Hne. rewrite Hne, Hatgc. simpl. repeat split.
Qed.

Lemma gc_between_0_and_100 (rawSeq : string) (c : R) :
  (0 <= gc (calculatePrimerProps rawSeq c) <= 100)%R.
Proof.
  destruct (isValid (calculatePrimerProps rawSeq c)) eqn:Hv.
  - pose proof (calculatePrimerProps_fields rawSeq c Hv) as (Hn & Hsum & _ & Hgc & _).
    cbv zeta in *. rewrite Hgc.
    pose proof (countBase_nonneg "A" (cleanSequence rawSeq)).
    pose proof (countBase_nonneg "T" (cleanSequence rawSeq)).
    pose proof (countBase_nonneg "G" (cleanSequence rawSeq)).
    pose proof (countBase_nonneg "C" (cleanSequence rawSeq)).
    set (n := strLen (cleanSequence rawSeq)) in *.
    set (k := countBase "G" (cleanSequence rawSeq) + countBase "C" (cleanSequence rawSeq)) in *.
    assert (Hk0 : (0 <= IZR k)%R) by (apply IZR_le; lia).
    assert (Hkn : (IZR k <= IZR n)%R) by (apply IZR_le; lia).
    assert (Hn0 : (0 < IZR n)%R) by (apply IZR_lt; lia).
    assert (Hinv : (IZR n * / IZR n = 1)%R) by (field; lra).
    assert (Hpos : (0 < / IZR n)%R) by (apply Rinv_0_lt_compat; lra).
    unfold Rdiv. split; nra.
  - unfold calculatePrimerProps in *.
    destruct (String.eqb (cleanSequence rawSeq) ""); [simpl; lra|].
    destruct (hasNonATGC (cleanSequence rawSeq)); [simpl; lra | discriminate Hv].
Qed.

(** X9. The GC percentage of every record, valid or not, lies between 0
    and 100. *)
Theorem calculatePrimerProps_gc_range (rawSeq : string) (c : R) :
  (0 <= gc (calculatePrimerProps rawSeq c) <= 100)%R.
Proof. apply gc_between_0_and_100. Qed.

(** X10. For a valid record, the GC percentage is 100 exactly when the
    cleaned sequence has no A and no T, and 0 exactly when it has no G and
    no C. *)
Theorem calculatePrimerProps_gc_extremes (rawSeq : string) (c : R) :
  isValid (calculatePrimerProps rawSeq c) = true ->
  let cs := cleanSequence rawSeq in
  (gc (calculatePrimerProps rawSeq c) = 100%R
   <-> countBase "A" cs = 0 /\ countBase "T" cs = 0) /\
  (gc (calculatePrimerProps rawSeq c) = 0%R
   <-> countBase "G" cs = 0 /\ countBase "C" cs = 0).
Proof.
  intros Hv cs.
  pose proof (calculatePrimerProps_fields rawSeq c Hv) as (Hn & Hsum & _ & Hgc & _).
  cbv zeta in *. fold cs in Hn, Hsum, Hgc. rewrite Hgc.
  pose proof (countBase_nonneg "A" cs). pose proof (countBase_nonneg "T" cs).
  pose proof (countBase_nonneg "G" cs). pose proof (countBase_nonneg "C" cs).
  set (n := strLen cs) in *. set (k := countBase "G" cs + countBase "C" cs) in *.
  assert (Hn0 : (0 < IZR n)%R) by (apply IZR_lt; lia).
  assert (Hinv : (IZR n * / IZR n = 1)%R) by (field; lra).
  split; split.
  - intros H100. assert (Hkn : IZR k = IZR n).
    { unfold Rdiv in H100. nra. }
    apply eq_IZR in Hkn. lia.
  - intros [Ha Ht]. replace k with n by lia. field. lra.
  - intros Hzero. assert (Hk : IZR k = 0%R).
    { unfold Rdiv in Hzero. nra. }
    apply eq_IZR in Hk. lia.
  - intros [Hg Hc]. replace k with 0 by lia. unfold Rdiv. lra.
Qed.

Lemma calculatePrimerProps_gc_extremes_witness :
  isValid (calculatePrimerProps "ggcc" 500) = true /\
  (gc (calculatePrimerProps "ggcc" 500) = 100%R
   <-> countBase "A" (cleanSequence "ggcc") = 0 /\ countBase "T" (cleanSequence "ggcc") = 0).
Proof.
  split; [reflexivity|].
  apply (calculatePrimerProps_gc_extremes "ggcc" 500). reflexivity.
Defined.

(** X11. The molecular weight of a valid record of [n] bases lies between
    289.2 n - 61.96 and 329.2 n - 61.96, the weights of n cytosines and of
    n guanines; it is positive. *)
Theorem calculatePrimerProps_weight_bounds (rawSeq : string) (c : R) :
  isValid (calculatePrimerProps rawSeq c) = true ->
  let p := calculatePrimerProps rawSeq c in
  (289.2 * IZR (length p) - 61.96 <= molecularWeight p <= 329.2 * IZR (length p) - 61.96)%R /\
  (0 < molecularWeight p)%R.
Proof.
  intros Hv.
  pose proof (calculatePrimerProps_fields rawSeq c Hv) as (Hn & Hsum & Hlen & _ & Hmw & _).
  cbv zeta in *. rewrite Hlen, Hmw, <- Hsum.
  pose proof (countBase_nonneg "A" (cleanSequence rawSeq)) as Ha.
  pose proof (countBase_nonneg "T" (cleanSequence rawSeq)) as Ht.
  pose proof (countBase_nonneg "G" (cleanSequence rawSeq)) as Hg.
  pose proof (countBase_nonneg "C" (cleanSequence rawSeq)) as Hc.
  assert (H1 : (1 <= IZR (countBase "A" (cleanSequence rawSeq) + countBase "T" (cleanSequence rawSeq)
                       + countBase "G" (cleanSequence rawSeq) + countBase "C" (cleanSequence rawSeq)))%R)
    by (apply IZR_le; lia).
  apply IZR_le in Ha, Ht, Hg, Hc.
  rewrite !plus_IZR in *. repeat split; lra.
Qed.

Lemma calculatePrimerProps_weight_bounds_witness :
  isValid (calculatePrimerProps "GAATTC" 500) = true /\
  (0 < molecularWeight (calculatePrimerProps "GAATTC" 500))%R.
Proof.
  split; [reflexivity|].
  apply (calculatePrimerProps_weight_bounds "GAATTC" 500). reflexivity.
Defined.

(** ** Composition and strand symmetry *)

Lemma existsb_Permutation {A : Type} (f : A -> bool) (l l' : list A) :
  Permutation l l' -> existsb f l = existsb f l'.
Proof.
  induction 1 as [| x l l' _ IH | x y l | l l' l'' _ IH1 _ IH2]; simpl.
  - reflexivity.
  - rewrite IH. reflexivity.
  - destruct (f x), (f y); reflexivity.
  - congruence.
Qed.

Lemma filter_length_Permutation {A : Type} (f : A -> bool) (l l' : list A) :
  Permutation l l' -> List.length (filter f l) = List.length (filter f l').
Proof.
  induction 1 as [| x l l' _ IH | x y l | l l' l'' _ IH1 _ IH2]; simpl.
  - reflexivity.
  - destruct (f x); simpl; congruence.
  - destruct (f x), (f y); reflexivity.
  - congruence.
Qed.

Lemma eqb_empty_chars (s : string) :
  String.eqb s "" = match list_ascii_of_string s with [] => true | _ => false end.
Proof. destruct s; reflexivity. Qed.

(** X12. Length, GC percentage, the basic melting temperature, the molecular
    weight and validity depend on the base composition only: two inputs
    whose cleaned sequences are rearrangements of each other agree on them. *)
Theorem calculatePrimerProps_composition (s1 s2 : string) (c : R) :
  Permutation (list_ascii_of_string (cleanSequence s1))
              (list_ascii_of_string (cleanSequence s2)) ->
  let p := calculatePrimerProps s1 c in
  let q := calculatePrimerProps s2 c in
  isValid p = isValid q /\ length p = length q /\ gc p = gc q /\
  tmBasic p = tmBasic q /\ molecularWeight p = molecularWeight q.
Proof.
  intros HP.
  assert (Hcount : forall b, countBase b (cleanSequence s1) = countBase b (cleanSequence s2)).
  { intros b. unfold countBase. f_equal. apply filter_length_Permutation. exact HP. }
  assert (Hlen : strLen (cleanSequence s1) = strLen (cleanSequence s2)).
  { unfold strLen. rewrite <- !length_list_ascii_of_string. f_equal.
    apply Permutation_length. exact HP. }
  assert (Hnon : hasNonATGC (cleanSequence s1) = hasNonATGC (cleanSequence s2)).
  { unfold hasNonATGC. apply existsb_Permutation. exact HP. }
  assert (Hemp : String.eqb (cleanSequence s1) "" = String.eqb (cleanSequence s2) "").
  { rewrite !eqb_empty_chars.
    destruct (list_ascii_of_string (cleanSequence s1)) as [|x l1] eqn:E1.
    - apply Permutation_nil in HP. rewrite HP. reflexivity.
    - destruct (list_ascii_of_string (cleanSequence s2)); [|reflexivity].
      apply Permutation_sym, Permutation_nil in HP. discriminate HP. }
  cbv zeta. unfold calculatePrimerProps. rewrite Hemp, Hnon, Hlen, !Hcount.
  destruct (String.eqb (cleanSequence s2) ""); [repeat split|].
  destruct (hasNonATGC (cleanSequence s2)); simpl; repeat split.
Qed.

Lemma calculatePrimerProps_composition_witness :
  Permutation (list_ascii_of_string (cleanSequence "GATC"))
              (list_ascii_of_string (cleanSequence "ATGC")) /\
  tmBasic (calculatePrimerProps "GATC" 500) = tmBasic (calculatePrimerProps "ATGC" 500).
Proof.
  assert (HP : Permutation (list_ascii_of_string (cleanSequence "GATC"))
                           (list_ascii_of_string (cleanSequence "ATGC"))).
  { change (Permutation ["G"; "A"; "T"; "C"] ["A"; "T"; "G"; "C"])%char.
    apply perm_trans with (["A"; "G"; "T"; "C"])%char; [apply perm_swap|].
    apply perm_skip. apply perm_swap. }
  split; [exact HP|].
  apply (calculatePrimerProps_composition "GATC" "ATGC" 500 HP).
Defined.

Lemma isATGC_isUpper (c : ascii) : isATGC c = true -> isUpper c = true.
Proof.
  intros H. destruct (isATGC_cases c H) as [-> | [-> | [-> | ->]]]; reflexivity.
Qed.

Lemma isSequence_clean (s : string) : isSequence s -> cleanSequence s = s.
Proof.
  unfold isSequence. intros H. apply cleanSequence_fixed.
  intros c Hc. apply isATGC_isUpper. rewrite forallb_forall in H. apply H. exact Hc.
Qed.

Lemma isSequence_hasNonATGC (s : string) : isSequence s -> hasNonATGC s = false.
Proof.
  unfold isSequence, hasNonATGC. intros H.
  destruct (existsb _ _) eqn:E; [|reflexivity].
  apply existsb_exists in E. destruct E as (x & Hx & Hn).
  rewrite forallb_forall in H. rewrite (H x Hx) in Hn. discriminate Hn.
Qed.

Lemma eqb_complement (b x : ascii) :
  isATGC b = true -> isATGC x = true ->
  Ascii.eqb b (getComplement x) = Ascii.eqb (getComplement b) x.
Proof.
  intros Hb Hx.
  destruct (isATGC_cases b Hb) as [-> | [-> | [-> | ->]]];
    destruct (isATGC_cases x Hx) as [-> | [-> | [-> | ->]]]; reflexivity.
Qed.

(** Complementing swaps the counts of A with T and of G with C. *)
Lemma countBase_reverseComplement (b : ascii) (s : string) :
  isATGC b = true -> isSequence s ->
  countBase b (reverseComplement s) = countBase (getComplement b) s.
Proof.
  unfold isSequence, countBase, reverseComplement. intros Hb Hs. f_equal.
  rewrite list_ascii_of_string_of_list_ascii.
  rewrite (filter_length_Permutation (Ascii.eqb (getComplement b))
             (list_ascii_of_string s) (rev (list_ascii_of_string s)))
    by apply Permutation_rev.
  assert (Hrev : forall x, In x (rev (list_ascii_of_string s)) -> isATGC x = true).
  { intros x Hx. rewrite forallb_forall in Hs. apply Hs. apply in_rev. exact Hx. }
  induction (rev (list_ascii_of_string s)) as [|x l IH]; [reflexivity|].
  cbn [map filter]. rewrite eqb_complement by (try exact Hb; apply Hrev; left; reflexivity).
  destruct (Ascii.eqb (getComplement b) x); cbn [List.length];
    rewrite IH by (intros y Hy; apply Hrev; right; exact Hy); reflexivity.
Qed.

Lemma sumThermo_app (xs ys : list Thermo) :
  dH (sumThermo (xs ++ ys)) = (dH (sumThermo xs) + dH (sumThermo ys))%R /\
  dS (sumThermo (xs ++ ys)) = (dS (sumThermo xs) + dS (sumThermo ys))%R.
Proof.
  induction xs as [|x xs [IHh IHs]]; simpl; [split; lra|].
  rewrite IHh, IHs. split; lra.
Qed.

Lemma adjacentPairs_snoc (m : list ascii) (a d : ascii) :
  m <> [] ->
  adjacentPairs (m ++ [a]) = (adjacentPairs m ++ [(last m d, a)])%list.
Proof.
  induction m as [|x m IH]; [congruence|]. intros _.
  destruct m as [|y m]; [reflexivity|].
  change (adjacentPairs ((x :: y :: m) ++ [a]))
    with ((x, y) :: adjacentPairs ((y :: m) ++ [a])).
  rewrite IH by discriminate. reflexivity.
Qed.

Lemma hd_rev_last {A : Type} (l : list A) (d : A) : hd d (rev l) = last l d.
Proof.
  induction l as [|a l IH]; [reflexivity|].
  destruct l as [|b l]; [reflexivity|].
  change (rev (a :: b :: l)) with (rev (b :: l) ++ [a])%list.
  change (last (a :: b :: l) d) with (last (b :: l) d).
  rewrite <- IH. destruct (rev (b :: l)) as [|z zs] eqn:E; [|reflexivity].
  apply (f_equal (@List.length A)) in E. rewrite length_rev in E. discriminate E.
Qed.

Lemma last_In {A : Type} (l : list A) (d : A) : l <> [] -> In (last l d) l.
Proof.
  induction l as [|a l IH]; [congruence|]. intros _.
  destruct l as [|b l]; [left; reflexivity|].
  right. apply IH. discriminate.
Qed.

Lemma dinucleotide_complement (a b : ascii) :
  isATGC a = true -> isATGC b = true ->
  dinucleotide (getComplement b, getComplement a) = dinucleotide (a, b).
Proof.
  intros Ha Hb.
  destruct (isATGC_cases a Ha) as [-> | [-> | [-> | ->]]];
    destruct (isATGC_cases b Hb) as [-> | [-> | [-> | ->]]]; reflexivity.
Qed.

Lemma terminalPenalty_complement (x : ascii) :
  isATGC x = true -> terminalPenalty (getComplement x) = terminalPenalty x.
Proof.
  intros H. destruct (isATGC_cases x H) as [-> | [-> | [-> | ->]]]; reflexivity.
Qed.

(** The table is symmetric under strand exchange: the entries along the
    reverse complement add up to the entries along the sequence. *)
Lemma pairs_sum_complement (l : list ascii) :
  (forall x, In x l -> isATGC x = true) ->
  let T := fun m => sumThermo (map dinucleotide (adjacentPairs m)) in
  dH (T (map getComplement (rev l))) = dH (T l) /\
  dS (T (map getComplement (rev l))) = dS (T l).
Proof.
  cbv zeta. induction l as [|a l IH]; intros Hl; [split; reflexivity|].
  destruct l as [|b l]; [split; reflexivity|].
  destruct IH as [IHh IHs]; [intros x Hx; apply Hl; right; exact Hx|].
  change (rev (a :: b :: l)) with (rev (b :: l) ++ [a])%list.
  rewrite map_app. cbn [map].
  assert (Hne : map getComplement (rev (b :: l)) <> []).
  { intros E. apply (f_equal (@List.length ascii)) in E.
    rewrite length_map, length_rev in E. discriminate E. }
  rewrite (adjacentPairs_snoc _ _ "A"%char Hne), map_app.
  destruct (sumThermo_app
              (map dinucleotide (adjacentPairs (map getComplement (rev (b :: l)))))
              (map dinucleotide [(last (map getComplement (rev (b :: l))) "A"%char,
                                  getComplement a)])) as [Hh Hs].
  rewrite Hh, Hs, IHh, IHs.
  assert (Hlast : last (map getComplement (rev (b :: l))) "A"%char = getComplement b).
  { change (rev (b :: l)) with (rev l ++ [b])%list. rewrite map_app. apply last_last. }
  rewrite Hlast. cbn [map sumThermo fold_right adjacentPairs].
  rewrite dinucleotide_complement
    by (apply Hl; simpl; tauto).
  simpl. split; lra.
Qed.

Lemma specTotals_reverseComplement (s : string) :
  isSequence s -> s <> "" ->
  dH (specTotals (reverseComplement s)) = dH (specTotals s) /\
  dS (specTotals (reverseComplement s)) = dS (specTotals s).
Proof.
  unfold isSequence. intros Hs Hne.
  assert (Hl : forall x, In x (list_ascii_of_string s) -> isATGC x = true)
    by (apply forallb_forall; exact Hs).
  assert (Hnil : list_ascii_of_string s <> []) by (destruct s; [congruence | discriminate]).
  unfold specTotals, reverseComplement. rewrite list_ascii_of_string_of_list_ascii.
  destruct (pairs_sum_complement _ Hl) as [Hh Hd]. cbv zeta in Hh, Hd.
  set (l := list_ascii_of_string s) in *.
  assert (Hhd : hd "A"%char (map getComplement (rev l)) = getComplement (last l "A"%char)).
  { rewrite <- hd_rev_last. destruct (rev l) eqn:E; [|reflexivity].
    apply (f_equal (@List.length ascii)) in E. rewrite length_rev in E.
    destruct l; [congruence | discriminate E]. }
  assert (Hla : last (map getComplement (rev l)) "A"%char = getComplement (hd "A"%char l)).
  { destruct l as [|a l']; [congruence|].
    change (rev (a :: l')) with (rev l' ++ [a])%list. rewrite map_app. apply last_last. }
  rewrite Hhd, Hla.
  rewrite !terminalPenalty_complement
    by first [ apply Hl; apply last_In; exact Hnil
             | destruct l; [congruence | apply Hl; left; reflexivity] ].
  simpl. rewrite Hh, Hd. split; lra.
Qed.

Lemma reverseComplement_empty (s : string) : reverseComplement s = "" -> s = "".
Proof.
  intros H. apply (f_equal strLen) in H. rewrite reverseComplement_length in H.
  destruct s; [reflexivity | discriminate H].
Qed.

(** X13. A sequence over A, T, G, C and its reverse complement get the same
    length, GC percentage, basic melting temperature and nearest-neighbour
    melting temperature, and are valid together: the parameter table reads
    the same on both strands. *)
Theorem calculatePrimerProps_strand_symmetry (s : string) (c : R) :
  isSequence s ->
  let p := calculatePrimerProps s c in
  let q := calculatePrimerProps (reverseComplement s) c in
  isValid q = isValid p /\ length q = length p /\ gc q = gc p /\
  tmBasic q = tmBasic p /\ tmNN q = tmNN p.
Proof.
  intros Hs. cbv zeta.
  pose proof (reverseComplement_isSequence s Hs) as Hr.
  destruct (calculatePrimerProps_flags s c) as [Hvp _].
  destruct (calculatePrimerProps_flags (reverseComplement s) c) as [Hvq _].
  rewrite (isSequence_clean _ Hs), (isSequence_hasNonATGC _ Hs) in Hvp.
  rewrite (isSequence_clean _ Hr), (isSequence_hasNonATGC _ Hr) in Hvq.
  destruct (String.eqb s "") eqn:E.
  - apply String.eqb_eq in E. subst s. repeat split.
  - assert (Er : String.eqb (reverseComplement s) "" = false).
    { apply String.eqb_neq. intros H. apply reverseComplement_empty in H.
      apply String.eqb_neq in E. contradiction. }
    rewrite Er in Hvq. simpl in Hvp, Hvq.
    pose proof (calculatePrimerProps_fields s c Hvp) as (_ & _ & Hlp & Hgp & _ & Hbp & Htp).
    pose proof (calculatePrimerProps_fields (reverseComplement s) c Hvq)
      as (_ & _ & Hlq & Hgq & _ & Hbq & Htq).
    cbv zeta in *.
    rewrite (isSequence_clean _ Hs) in Hlp, Hgp, Hbp, Htp.
    rewrite (isSequence_clean _ Hr) in Hlq, Hgq, Hbq, Htq.
    pose proof (countBase_reverseComplement "G" s eq_refl Hs) as HG.
    pose proof (countBase_reverseComplement "C" s eq_refl Hs) as HC.
    pose proof (countBase_reverseComplement "A" s eq_refl Hs) as HA.
    pose proof (countBase_reverseComplement "T" s eq_refl Hs) as HT.
    rewrite HG, HC in Hgq. rewrite HG, HC, HA, HT in Hbq.
    rewrite reverseComplement_length in Hlq, Hgq, Hbq.
    change (getComplement "G") with "C"%char in *.
    change (getComplement "C") with "G"%char in *.
    change (getComplement "A") with "T"%char in *.
    change (getComplement "T") with "A"%char in *.
    rewrite Hvp, Hvq, Hlp, Hlq, Hgp, Hgq, Hbp, Hbq, Htp, Htq.
    apply String.eqb_neq in E.
    destruct (nnTotals_spec s E) as [H1 H2].
    destruct (nnTotals_spec (reverseComplement s)) as [H3 H4];
      [apply String.eqb_neq; exact Er|].
    destruct (specTotals_reverseComplement s Hs E) as [H5 H6].
    repeat split.
    + replace (countBase "C" s + countBase "G" s)
        with (countBase "G" s + countBase "C" s) by lia.
      reflexivity.
    + replace (countBase "C" s + countBase "G" s)
        with (countBase "G" s + countBase "C" s) by lia.
      replace (countBase "T" s + countBase "A" s)
        with (countBase "A" s + countBase "T" s) by lia.
      reflexivity.
    + unfold nnTm. rewrite H1, H2, H3, H4, H5, H6. reflexivity.
Qed.

Lemma calculatePrimerProps_strand_symmetry_witness :
  isSequence "GGATCA" /\
  tmNN (calculatePrimerProps (reverseComplement "GGATCA") 500)
  = tmNN (calculatePrimerProps "GGATCA" 500).
Proof.
  split; [reflexivity|].
  apply (calculatePrimerProps_strand_symmetry "GGATCA" 500). reflexivity.
Defined.

(** ** More on the pairs of designPrimers *)

(** X14. designPrimers reads the template through cleaning only: a template
    and its cleaned form give the same result. *)
Theorem designPrimers_cleaning_invariant (template : string) (config : Config) :
  designPrimers (cleanSequence template) config = designPrimers template config.
Proof.
  unfold designPrimers.
  rewrite (cleanSequence_fixed (cleanSequence template)) by apply cleanSequence_upper.
  reflexivity.
Qed.

Lemma hasNonATGC_isSequence (s : string) : hasNonATGC s = false -> isSequence s.
Proof.
  unfold hasNonATGC, isSequence. intros H. apply forallb_forall. intros c Hc.
  destruct (isATGC c) eqn:E; [reflexivity|].
  assert (Ht : existsb (fun c0 => negb (isATGC c0)) (list_ascii_of_string s) = true).
  { apply existsb_exists. exists c. split; [exact Hc | rewrite E; reflexivity]. }
  congruence.
Qed.

Lemma substring_upper (s : string) (a b : Z) :
  (forall c, In c (list_ascii_of_string s) -> isUpper c = true) ->
  forall c, In c (list_ascii_of_string (substring s a b)) -> isUpper c = true.
Proof. intros H c Hc. apply H. eapply substring_chars. exact Hc. Qed.

Lemma isComplementBase_isUpper (c : ascii) : isComplementBase c = true -> isUpper c = true.
Proof.
  unfold isComplementBase. rewrite orb_true_iff, Ascii.eqb_eq.
  intros [H | ->]; [apply isATGC_isUpper; exact H | reflexivity].
Qed.

Lemma reverseComplement_upper (s : string) (c : ascii) :
  In c (list_ascii_of_string (reverseComplement s)) -> isUpper c = true.
Proof.
  unfold reverseComplement. rewrite list_ascii_of_string_of_list_ascii, in_map_iff.
  intros (x & <- & _). apply isComplementBase_isUpper, getComplement_base.
Qed.

Lemma forwardCandidates_placed (s : string) (config : Config) (f : CandidatePrimer) :
  (forall c, In c (list_ascii_of_string s) -> isUpper c = true) ->
  In f (forwardCandidates s config) -> forwardPlaced s config f.
Proof.
  intros Hs Hf. unfold forwardCandidates in Hf.
  apply filter_In in Hf. destruct Hf as [Hf Hkeep].
  apply in_map_iff in Hf. destruct Hf as ([i l] & <- & Hil).
  apply forwardScan_spec in Hil. apply looseKeep_spec in Hkeep.
  destruct Hkeep as [Hvalid _]. simpl in Hvalid.
  pose proof (calculatePrimerProps_valid _ _ Hvalid) as (Hclean & _ & Hne & Hatgc).
  assert (Hfix : cleanSequence (substring s i (i + l)) = substring s i (i + l))
    by (apply cleanSequence_fixed, substring_upper; exact Hs).
  rewrite Hfix in Hclean, Hne, Hatgc.
  assert (Hlen : strLen (substring s i (i + l)) = l)
    by (rewrite substring_length by lia; lia).
  pose proof (strLen_pos _ Hne) as Hpos.
  unfold forwardPlaced. simpl.
  rewrite calculatePrimerProps_seq, Hclean.
  replace (i + l - 1 + 1) with (i + l) by lia.
  repeat split; try lia; try assumption.
  apply hasNonATGC_isSequence. exact Hatgc.
Qed.

Lemma reverseCandidates_placed (s : string) (config : Config) (r : CandidatePrimer) :
  In r (reverseCandidates s config) -> reversePlaced s config r.
Proof.
  intros Hr. unfold reverseCandidates in Hr.
  apply filter_In in Hr. destruct Hr as [Hr Hkeep].
  apply in_map_iff in Hr. destruct Hr as ([i l] & <- & Hil).
  apply reverseScan_spec in Hil. apply looseKeep_spec in Hkeep.
  destruct Hkeep as [Hvalid _]. simpl in Hvalid.
  pose proof (calculatePrimerProps_valid _ _ Hvalid) as (Hclean & _ & Hne & Hatgc).
  set (segment := substring s (i - l + 1) (i + 1)) in *.
  assert (Hfix : cleanSequence (reverseComplement segment) = reverseComplement segment)
    by (apply cleanSequence_fixed, reverseComplement_upper).
  rewrite Hfix in Hclean, Hne, Hatgc.
  assert (Hlen : strLen (reverseComplement segment) = l).
  { rewrite reverseComplement_length. unfold segment.
    rewrite substring_length by lia. lia. }
  pose proof (strLen_pos _ Hne) as Hpos.
  unfold reversePlaced. simpl. fold segment.
  rewrite calculatePrimerProps_seq, Hclean.
  repeat split; try lia; try assumption.
  apply hasNonATGC_isSequence. exact Hatgc.
Qed.

(** X15. In every pair designPrimers returns, both primers are valid records
    over A, T, G, C; the forward primer's sequence is the stretch of the
    cleaned template from its [start] to its [end], and the reverse primer's
    sequence is the reverse complement of the stretch from its [start] to
    its [end]. *)
Theorem designPrimers_primer_content (template : string) (config : Config) :
  Forall (fun p =>
            let s := cleanSequence template in
            let f := forward p in
            let r := reverse p in
            (isValid (props f) = true /\ isSequence (seq (props f)) /\
             cleanSeq (props f) = seq (props f) /\
             seq (props f) = substring s (start f) (end_ f + 1)) /\
            (isValid (props r) = true /\ isSequence (seq (props r)) /\
             cleanSeq (props r) = seq (props r) /\
             seq (props r) = reverseComplement (substring s (start r) (end_ r + 1))))
         (designPrimers template config).
Proof.
  apply Forall_forall. intros p Hp.
  apply designPrimers_In in Hp. destruct Hp as (f & r & Hf & Hr & Hp).
  apply tryPair_spec in Hp. destruct Hp as (-> & -> & _).
  apply forwardCandidates_placed in Hf; [|apply cleanSequence_upper].
  apply reverseCandidates_placed in Hr.
  unfold forwardPlaced in Hf. unfold reversePlaced in Hr. cbv zeta. tauto.
Qed.

(** X16. In every pair designPrimers returns, with [len] the cleaned
    template length: the forward primer lies within the template and starts
    before [len - minProd]; the reverse primer lies within the template,
    starts at index 1 or later and ends at or after [minProd]; the product
    size is above 1 and below [len + 1]. *)
Theorem designPrimers_positions (template : string) (config : Config) :
  Forall (fun p =>
            let len := strLen (cleanSequence template) in
            let f := forward p in
            let r := reverse p in
            (0 <= start f <= end_ f /\ end_ f < len /\ start f < len - minProd config) /\
            (1 <= start r <= end_ r /\ end_ r < len /\ minProd config <= end_ r) /\
            1 < productSize p < len + 1)
         (designPrimers template config).
Proof.
  apply Forall_forall. intros p Hp.
  apply designPrimers_In in Hp. destruct Hp as (f & r & Hf & Hr & Hp).
  apply tryPair_spec in Hp. destruct Hp as (-> & -> & Hlt & Hsize & _).
  apply forwardCandidates_placed in Hf; [|apply cleanSequence_upper].
  apply reverseCandidates_placed in Hr.
  unfold forwardPlaced in Hf. unfold reversePlaced in Hr. cbv zeta.
  rewrite Hsize. repeat split; lia.
Qed.

Lemma tryPair_fields (config : Config) (f r : CandidatePrimer) (p : PrimerPair) :
  In p (tryPair config f r) ->
  id p = numberToString (start f) ++ "-" ++ numberToString (end_ r) /\
  tmDiff p = Rabs (tmNN (props f) - tmNN (props r)) /\
  score p = (Rabs (tmNN (props f) - optTm config) + Rabs (tmNN (props r) - optTm config)
             + tmDiff p * 2
             + (Rabs (gc (props f) - 50) + Rabs (gc (props r) - 50)) * 0.1
             + clampPenalty f + clampPenalty r)%R.
Proof.
  unfold tryPair, Math_abs.
  destruct (end_ r <=? start f); [intros []|].
  destruct (_ || _); [intros []|].
  destruct (_ || _); [intros []|].
  destruct (_ || _); [intros []|].
  destruct (Rltb 5 _); [intros []|].
  intros [<- | []]. simpl. repeat split.
Qed.

Lemma clampPenalty_range (p : CandidatePrimer) : (0 <= clampPenalty p <= 2)%R.
Proof. unfold clampPenalty. destruct (_ || _); lra. Qed.

Lemma candidate_gc_range (s : string) (config : Config) (x : CandidatePrimer) :
  In x (forwardCandidates s config) \/ In x (reverseCandidates s config) ->
  (0 <= gc (props x) <= 100)%R.
Proof.
  unfold forwardCandidates, reverseCandidates.
  intros [H | H]; apply filter_In in H; destruct H as [H _];
    apply in_map_iff in H; destruct H as ([i l] & <- & _); simpl;
    apply gc_between_0_and_100.
Qed.

(** X17. In every pair designPrimers returns, [id] is the forward start and
    the reverse end joined by a dash, [tmDiff] is the absolute difference of
    the two nearest-neighbour temperatures and lies between 0 and 5, and the
    score is at least twice [tmDiff] and at most 24 above the two distances
    from the optimal temperature. *)
Theorem designPrimers_bookkeeping (template : string) (config : Config) :
  Forall (pairBookkeeping config) (designPrimers template config).
Proof.
  apply Forall_forall. intros p Hp.
  apply designPrimers_In in Hp. destruct Hp as (f & r & Hf & Hr & Hp).
  pose proof (tryPair_fields _ _ _ _ Hp) as (Hid & Hdiff & Hscore).
  apply tryPair_spec in Hp. destruct Hp as (Hfw & Hrv & _ & _ & _ & _ & _ & H5).
  pose proof (candidate_gc_range _ _ f (or_introl Hf)) as Hgf.
  pose proof (candidate_gc_range _ _ r (or_intror Hr)) as Hgr.
  pose proof (clampPenalty_range f) as Hcf.
  pose proof (clampPenalty_range r) as Hcr.
  unfold pairBookkeeping. cbv zeta. rewrite Hfw, Hrv.
  split; [exact Hid|]. split; [exact Hdiff|].
  rewrite Hscore, Hdiff.
  pose proof (Rabs_pos (tmNN (props f) - tmNN (props r))) as Hd0.
  pose proof (Rabs_pos (tmNN (props f) - optTm config)) as Hf0.
  pose proof (Rabs_pos (tmNN (props r) - optTm config)) as Hr0.
  assert (Hgf50 : (0 <= Rabs (gc (props f) - 50) <= 50)%R)
    by (split; [apply Rabs_pos | apply Rabs_le; lra]).
  assert (Hgr50 : (0 <= Rabs (gc (props r) - 50) <= 50)%R)
    by (split; [apply Rabs_pos | apply Rabs_le; lra]).
  repeat split; lra.
Qed.

(** ** Ranking keeps the best *)

Lemma insertBy_Permutation {A : Type} (cmp : A -> A -> R) (x : A) (l : list A) :
  Permutation (insertBy cmp x l) (x :: l).
Proof.
  induction l as [|y l IH]; simpl; [reflexivity|].
  destruct (Rleb (cmp x y) 0); [reflexivity|].
  rewrite IH. apply perm_swap.
Qed.

Lemma sortBy_Permutation {A : Type} (cmp : A -> A -> R) (l : list A) :
  Permutation (sortBy cmp l) l.
Proof.
  induction l as [|x l IH]; simpl; [reflexivity|].
  rewrite insertBy_Permutation. apply perm_skip. exact IH.
Qed.

Lemma StronglySorted_app_le {A : Type} (R : A -> A -> Prop) (l1 l2 : list A) :
  StronglySorted R (l1 ++ l2) ->
  Forall (fun x => Forall (R x) l2) l1.
Proof.
  induction l1 as [|a l1 IH]; simpl; intros H; [constructor|].
  inversion H as [|? ? Hs Hall]; subst. constructor; [|apply IH; exact Hs].
  apply Forall_app in Hall. tauto.
Qed.

Lemma allPairs_short (s : string) (config : Config) :
  strLen s < minProd config -> allPairs s config = [].
Proof.
  intros H. unfold allPairs, topFwd, forwardCandidates.
  rewrite forwardScan_empty by lia. reflexivity.
Qed.

(** X18. The cap of 20 drops only the worst: the pairs built by the pairing
    loop are, up to order, the returned pairs together with dropped ones,
    and no dropped pair has a lower score than a returned one. *)
Theorem designPrimers_keeps_best (template : string) (config : Config) :
  exists dropped : list PrimerPair,
    Permutation (designPrimers template config ++ dropped)
                (allPairs (cleanSequence template) config) /\
    Forall (fun p => Forall (fun q => (score p <= score q)%R) dropped)
           (designPrimers template config).
Proof.
  unfold designPrimers.
  destruct (strLen (cleanSequence template) <? minProd config) eqn:E.
  - apply Z.ltb_lt in E. exists []. rewrite allPairs_short by exact E.
    split; constructor.
  - set (cmp := fun a b : PrimerPair => (score a - score b)%R).
    set (sorted := sortBy cmp (allPairs (cleanSequence template) config)).
    exists (skipn 20 sorted). split.
    + rewrite firstn_skipn. apply sortBy_Permutation.
    + assert (Hs : StronglySorted (before cmp) sorted).
      { apply Sorted_StronglySorted.
        - intros x y z. unfold before, cmp. lra.
        - apply sortBy_Sorted. intros x y. unfold cmp. lra. }
      rewrite <- (firstn_skipn 20 sorted) in Hs.
      apply StronglySorted_app_le in Hs.
      eapply Forall_impl; [|exact Hs]. intros p Hp.
      eapply Forall_impl; [|exact Hp]. intros q Hq.
      unfold before, cmp in Hq. lra.
Qed.

(** ** Constraints that cannot be met *)

Lemma no_member_nil {A : Type} (l : list A) : (forall x, ~ In x l) -> l = [].
Proof. destruct l as [|a l]; [reflexivity|]. intros H. destruct (H a). left. reflexivity. Qed.

(** X19. With a reversed product-size range, a reversed temperature window
    or a reversed primer-length range, designPrimers returns nothing. *)
Theorem designPrimers_reversed_bounds (template : string) (config : Config) :
  maxProd config < minProd config \/
  (maxTm config < minTm config)%R \/
  (maxLen config < minLen config)%nat ->
  designPrimers template config = [].
Proof.
  intros H. apply no_member_nil. intros p Hp.
  apply designPrimers_In in Hp. destruct Hp as (f & r & Hf & Hr & Hp).
  apply tryPair_spec in Hp. destruct Hp as (_ & _ & _ & _ & Hsize & Htm & _).
  apply forwardCandidates_invariant in Hf; [|apply cleanSequence_lettersOnly].
  destruct Hf as (_ & _ & _ & Hlen).
  destruct H as [H | [H | H]]; [lia | lra | lia].
Qed.

Lemma designPrimers_reversed_bounds_witness :
  (1000 < 2000 \/ (65 < 55)%R \/ (24 < 18)%nat) /\
  designPrimers "ATGCATGCATGCATGCATGCATGCATGC" (mkConfig 2000 1000 18 24 55 65 60) = [].
Proof.
  split; [left; lia|].
  apply designPrimers_reversed_bounds. left. simpl. lia.
Defined.

(** X20. A template without a single A, T, G or C after cleaning yields no
    pair, whatever the configuration. *)
Theorem designPrimers_no_bases (template : string) (config : Config) :
  forallb (fun c => negb (isATGC c)) (list_ascii_of_string (cleanSequence template)) = true ->
  designPrimers template config = [].
Proof.
  intros H. apply no_member_nil. intros p Hp.
  apply designPrimers_In in Hp. destruct Hp as (f & r & Hf & _ & _).
  apply forwardCandidates_placed in Hf; [|apply cleanSequence_upper].
  destruct Hf as (_ & Hseq & _ & Hatgc & Hpos & Hend & _).
  unfold isSequence in Hatgc. rewrite Hseq in Hatgc.
  assert (Hlen : strLen (substring (cleanSequence template) (start f) (end_ f + 1))
                 = end_ f + 1 - start f) by (apply substring_length; lia).
  unfold strLen in Hlen. rewrite <- length_list_ascii_of_string in Hlen.
  destruct (list_ascii_of_string (substring (cleanSequence template) (start f) (end_ f + 1)))
    as [|x l] eqn:E.
  - simpl in Hlen. lia.
  - assert (Hx : In x (list_ascii_of_string (cleanSequence template))).
    { eapply substring_chars. rewrite E. left. reflexivity. }
    rewrite forallb_forall in H. specialize (H x Hx).
    simpl in Hatgc. apply andb_true_iff in Hatgc. destruct Hatgc as [Hx' _].
    rewrite Hx' in H. discriminate H.
Qed.

Lemma designPrimers_no_bases_witness :
  forallb (fun c => negb (isATGC c)) (list_ascii_of_string (cleanSequence "nnnn-NNNN-uuuu")) = true /\
  designPrimers "nnnn-NNNN-uuuu" (mkConfig 2 12 2 4 (-1000) 1000 0) = [].
Proof.
  split; [reflexivity | apply designPrimers_no_bases; reflexivity].
Defined.

(** ** When a pair is found *)

Lemma forwardCandidates_room (s : string) (config : Config) (f : CandidatePrimer) :
  In f (forwardCandidates s config) -> minProd config < strLen s.
Proof.
  unfold forwardCandidates. intros H. apply filter_In in H. destruct H as [H _].
  apply in_map_iff in H. destruct H as ([i l] & _ & Hil).
  apply forwardScan_spec in Hil. lia.
Qed.

(** X21. While each scan retains at most 300 candidates, designPrimers
    returns at least one pair exactly when some retained forward candidate
    and some retained reverse candidate pass all the pairing guards. *)
Theorem designPrimers_complete (template : string) (config : Config) :
  let s := cleanSequence template in
  (List.length (forwardCandidates s config) <= MAX_CANDIDATES)%nat ->
  (List.length (reverseCandidates s config) <= MAX_CANDIDATES)%nat ->
  (designPrimers template config <> [] <->
   exists f r, In f (forwardCandidates s config) /\
               In r (reverseCandidates s config) /\
               pairGuards config f r).
Proof.
  intros s Hnf Hnr. split.
  - intros Hne. destruct (designPrimers template config) as [|p l] eqn:E; [congruence|].
    assert (Hp : In p (designPrimers template config)) by (rewrite E; left; reflexivity).
    apply designPrimers_In in Hp. destruct Hp as (f & r & Hf & Hr & Hp).
    apply tryPair_spec in Hp.
    destruct Hp as (_ & _ & H1 & Hsize & H2 & H3 & H4 & H5). rewrite Hsize in H2.
    exists f, r. unfold pairGuards. tauto.
  - intros (f & r & Hf & Hr & H1 & H2 & H3 & H4 & H5).
    apply designPrimers_nonempty.
    + apply forwardCandidates_room in Hf. fold s. lia.
    + destruct (tryPair_pushes config f r H1 H2 H3 H4 H5) as (p & Hp & _).
      intros Hnil.
      assert (Hin : In p (allPairs s config)).
      { unfold allPairs. apply in_flat_map. exists f.
        split; [apply In_top; assumption|].
        apply in_flat_map. exists r.
        split; [apply In_top; assumption|]. rewrite Hp. left. reflexivity. }
      fold s in Hnil. rewrite Hnil in Hin. exact Hin.
Qed.

Lemma designPrimers_complete_witness :
  let config := mkConfig 1 3 1 1 (-650) (-280) (-480) in
  let s := cleanSequence "ATA" in
  ((List.length (forwardCandidates s config) <= MAX_CANDIDATES)%nat /\
   (List.length (reverseCandidates s config) <= MAX_CANDIDATES)%nat) /\
  (designPrimers "ATA" config <> [] <->
   exists f r, In f (forwardCandidates s config) /\
               In r (reverseCandidates s config) /\
               pairGuards config f r).
Proof.
  intros config s.
  assert (Hf : (List.length (forwardCandidates s config) <= MAX_CANDIDATES)%nat).
  { unfold forwardCandidates. eapply Nat.le_trans; [apply filter_length_le|].
    rewrite length_map. vm_compute. lia. }
  assert (Hr : (List.length (reverseCandidates s config) <= MAX_CANDIDATES)%nat).
  { unfold reverseCandidates. eapply Nat.le_trans; [apply filter_length_le|].
    rewrite length_map. vm_compute. lia. }
  split; [split; assumption|].
  apply (designPrimers_complete "ATA" config Hf Hr).
Defined.

(** ** The page *)

Lemma Int_part_shift (x : R) (n : Z) : Int_part (x + IZR n) = Int_part x + n.
Proof.
  symmetry. apply Int_part_spec. rewrite plus_IZR.
  destruct (base_Int_part x). lra.
Qed.

(** X22. For two valid primers the recommended annealing temperature is an
    integer [t] with Q5, [t + 3] with Phusion and [t - 5] with Taq, where
    [t] is the lower of the two nearest-neighbour temperatures rounded
    down. *)
Theorem analysisTa_offsets (fwd rev : PrimerResult) :
  isValid fwd = true -> isValid rev = true ->
  exists t : Z,
    analysisTa q5 fwd rev = Some t /\
    analysisTa phusion fwd rev = Some (t + 3) /\
    analysisTa taq fwd rev = Some (t - 5) /\
    (IZR t <= tmNN fwd)%R /\ (IZR t <= tmNN rev)%R /\
    (tmNN fwd < IZR t + 1 \/ tmNN rev < IZR t + 1)%R.
Proof.
  intros Hf Hr. exists (Int_part (Rmin (tmNN fwd) (tmNN rev))).
  unfold analysisTa, Math_floor, Math_min. rewrite Hf, Hr. simpl.
  split; [reflexivity|].
  split; [f_equal; apply (Int_part_shift _ 3)|].
  split; [f_equal; apply (Int_part_shift _ (-5))|].
  destruct (base_Int_part (Rmin (tmNN fwd) (tmNN rev))) as [Hlo Hhi].
  pose proof (Rmin_l (tmNN fwd) (tmNN rev)).
  pose proof (Rmin_r (tmNN fwd) (tmNN rev)).
  split; [lra|]. split; [lra|].
  unfold Rmin in *. destruct (Rle_dec (tmNN fwd) (tmNN rev)); [left | right]; lra.
Qed.

Lemma analysisTa_offsets_witness :
  let fwd := calculatePrimerProps "GAATTC" 500 in
  let rev := calculatePrimerProps "ggatcc" 500 in
  (isValid fwd = true /\ isValid rev = true) /\
  exists t : Z,
    analysisTa q5 fwd rev = Some t /\
    analysisTa phusion fwd rev = Some (t + 3) /\
    analysisTa taq fwd rev = Some (t - 5) /\
    (IZR t <= tmNN fwd)%R /\ (IZR t <= tmNN rev)%R /\
    (tmNN fwd < IZR t + 1 \/ tmNN rev < IZR t + 1)%R.
Proof.
  intros fwd rev.
  split; [split; reflexivity|].
  apply (analysisTa_offsets fwd rev); reflexivity.
Defined.

(** X23. The analysis does not depend on which primer is entered as forward
    and which as reverse: the temperature difference and the recommended
    annealing temperature are the same after a swap, the difference is never
    negative, and there is a recommendation exactly when both primers are
    valid. *)
Theorem analysis_symmetric (polymerase : Polymerase) (fwd rev : PrimerResult) :
  analysisTmDiff fwd rev = analysisTmDiff rev fwd /\
  (0 <= analysisTmDiff fwd rev)%R /\
  analysisTa polymerase fwd rev = analysisTa polymerase rev fwd /\
  (analysisTa polymerase fwd rev = None <-> isValid fwd && isValid rev = false).
Proof.
  unfold analysisTmDiff, analysisTa, Math_abs, Math_min.
  rewrite (Rmin_comm (tmNN rev)), (Rabs_minus_sym (tmNN rev)).
  destruct (isValid fwd), (isValid rev); simpl;
    repeat split; try reflexivity; try lra; try apply Rabs_pos;
    try discriminate; destruct polymerase; discriminate.
Qed.

Lemma designPrimers_StronglySorted (template : string) (config : Config) :
  StronglySorted (fun a b => (score a <= score b)%R) (designPrimers template config).
Proof.
  apply Sorted_StronglySorted; [intros x y z; lra|].
  unfold designPrimers.
  destruct (strLen (cleanSequence template) <? minProd config); [constructor|].
  apply Sorted_firstn.
  set (cmp := fun a b : PrimerPair => (score a - score b)%R).
  assert (Hs : Sorted (before cmp) (sortBy cmp (allPairs (cleanSequence template) config)))
    by (apply sortBy_Sorted; intros x y; unfold cmp; lra).
  eapply Sorted_ind with (P := fun l => Sorted (fun a b => (score a <= score b)%R) l);
    [constructor | | exact Hs].
  intros a l _ IH Hhd. constructor; [exact IH|].
  destruct Hhd as [|b l' Hab]; constructor. unfold before, cmp in Hab. lra.
Qed.

(** X24. When the timer of a design run fires, whatever the state was, the
    results become those of designPrimers for the template and configuration
    of the run and the busy flag drops; if there are results, the selected
    pair is the first of them and no other result has a lower score; if
    there are none, no pair is selected. *)
Theorem handleDesignTimeout_selects_best
        (template : string) (config : Config) (st : DesignState) :
  let st' := handleDesignTimeout template config st in
  designResults st' = designPrimers template config /\
  isDesigning st' = false /\
  match designPrimers template config with
  | [] => selectedPair st' = None
  | best :: others =>
      selectedPair st' = Some best /\
      Forall (fun q => (score best <= score q)%R) others
  end.
Proof.
  cbv zeta. unfold handleDesignTimeout, selectedPair. simpl.
  split; [reflexivity|]. split; [reflexivity|].
  pose proof (designPrimers_StronglySorted template config) as Hs.
  destruct (designPrimers template config) as [|best others]; [reflexivity|].
  simpl. rewrite String.eqb_refl. split; [reflexivity|].
  inversion Hs; assumption.
Qed.

(** ** The reverse scan and the candidate cap *)

(** X25. The reverse scan steps its end index by one from [minProd]: it
    builds a primer of length [l] ending at [i] exactly when [i] is [minProd]
    plus a whole number of steps, [i < len], [l] is within [minLen, maxLen]
    and [l <= i], so that its start [i - l + 1] is at least 1; the primer is
    retained exactly when it is built, valid, and its nearest-neighbour
    temperature is within [minTm - 5, maxTm + 5]. *)
Theorem reverse_enumeration (template : string) (config : Config) (i l : Z) :
  let s := cleanSequence template in
  let len := strLen s in
  let cand := reverseCandidate s (i, l) in
  (In (i, l) (reverseScan len config) <->
   (exists k : nat, i = minProd config + Z.of_nat k) /\
   i < len /\
   Z.of_nat (minLen config) <= l <= Z.of_nat (maxLen config) /\
   l <= i) /\
  (In cand (reverseCandidates s config) <->
   In (i, l) (reverseScan len config) /\
   isValid (props cand) = true /\
   (minTm config - 5 <= tmNN (props cand) <= maxTm config + 5)%R).
Proof.
  intros s len cand. split.
  - rewrite reverseScan_spec. fold len. split.
    + intros (Hi & Hl & Hge). split; [|lia].
      exists (Z.to_nat (i - minProd config)). lia.
    + intros ((k & Hk) & Hi & Hl & Hge). lia.
  - unfold reverseCandidates. rewrite filter_In, looseKeep_spec, in_map_iff. split.
    + intros [([i' l'] & Heq & Hin) Hkeep]. split; [|exact Hkeep].
      unfold cand in Heq. simpl in Heq. inversion Heq as [[Hp Hstart Hend]].
      subst i'. assert (l' = l) by lia. subst l'. exact Hin.
    + intros (Hin & Hkeep). split; [|exact Hkeep].
      exists (i, l). split; [reflexivity | exact Hin].
Qed.

Lemma tryPair_length (config : Config) (f r : CandidatePrimer) :
  (List.length (tryPair config f r) <= 1)%nat.
Proof.
  unfold tryPair.
  destruct (end_ r <=? start f); [simpl; lia|].
  destruct (_ || _); [simpl; lia|].
  destruct (_ || _); [simpl; lia|].
  destruct (_ || _); [simpl; lia|].
  destruct (Rltb 5 _); simpl; lia.
Qed.

Lemma flat_map_length_le {A B : Type} (f : A -> list B) (l : list A) (k : nat) :
  (forall x, List.length (f x) <= k)%nat ->
  (List.length (flat_map f l) <= List.length l * k)%nat.
Proof.
  intros H. induction l as [|x l IH]; simpl; [lia|].
  rewrite length_app. specialize (H x). lia.
Qed.

(** X26. The pairing loop examines at most [MAX_CANDIDATES] = 300 forward
    and as many reverse candidates, and so builds at most 300 x 300 pairs,
    however long the template. *)
Theorem allPairs_bounded (template : string) (config : Config) :
  let s := cleanSequence template in
  (List.length (topFwd s config) <= MAX_CANDIDATES)%nat /\
  (List.length (topRev s config) <= MAX_CANDIDATES)%nat /\
  (List.length (allPairs s config) <= MAX_CANDIDATES * MAX_CANDIDATES)%nat.
Proof.
  intros s.
  assert (Hf : (List.length (topFwd s config) <= MAX_CANDIDATES)%nat)
    by apply firstn_le_length.
  assert (Hr : (List.length (topRev s config) <= MAX_CANDIDATES)%nat)
    by apply firstn_le_length.
  split; [exact Hf|]. split; [exact Hr|].
  unfold allPairs.
  eapply Nat.le_trans.
  - apply (flat_map_length_le _ _ MAX_CANDIDATES). intros f.
    eapply Nat.le_trans; [apply (flat_map_length_le _ _ 1); intros r; apply tryPair_length|].
    rewrite Nat.mul_1_r. exact Hr.
  - apply Nat.mul_le_mono_r. exact Hf.
Qed.

Lemma top_keeps_lowest {A : Type} (key : A -> R) (n : nat) (l : list A) :
  let top := firstn n (sortBy (fun a b => (key a - key b)%R) l) in
  exists dropped : list A,
    Permutation (top ++ dropped) l /\
    Forall (fun x => Forall (fun y => (key x <= key y)%R) dropped) top.
Proof.
  cbv zeta. set (cmp := fun a b : A => (key a - key b)%R).
  exists (skipn n (sortBy cmp l)). split.
  - rewrite firstn_skipn. apply sortBy_Permutation.
  - assert (Hs : StronglySorted (before cmp) (sortBy cmp l)).
    { apply Sorted_StronglySorted.
      - intros x y z. unfold before, cmp. lra.
      - apply sortBy_Sorted. intros x y. unfold cmp. lra. }
    rewrite <- (firstn_skipn n (sortBy cmp l)) in Hs.
    apply StronglySorted_app_le in Hs.
    eapply Forall_impl; [|exact Hs]. intros p Hp.
    eapply Forall_impl; [|exact Hp]. intros q Hq.
    unfold before, cmp in Hq. lra.
Qed.

(** X27. The cap of 300 candidates drops only the candidates farthest from
    the optimal temperature: on each strand the retained candidates are, up
    to order, the kept ones together with dropped ones, and no dropped
    candidate is closer to [optTm] than a kept one. *)
Theorem candidate_cap_keeps_nearest (template : string) (config : Config) :
  let s := cleanSequence template in
  let distance := fun c : CandidatePrimer => Rabs (tmNN (props c) - optTm config) in
  (exists dropped,
      Permutation (topFwd s config ++ dropped) (forwardCandidates s config) /\
      Forall (fun x => Forall (fun y => (distance x <= distance y)%R) dropped)
             (topFwd s config)) /\
  (exists dropped,
      Permutation (topRev s config ++ dropped) (reverseCandidates s config) /\
      Forall (fun x => Forall (fun y => (distance x <= distance y)%R) dropped)
             (topRev s config)).
Proof.
  intros s distance. split.
  - apply (top_keeps_lowest distance MAX_CANDIDATES (forwardCandidates s config)).
  - apply (top_keeps_lowest distance MAX_CANDIDATES (reverseCandidates s config)).
Qed.
